(** * clr-installer, package storage: block devices, partition tables, sizes

    A shallow embedding of [storage/storage.go].  Go pointers are addresses
    into an explicit store, so that node identity, parent back-references and
    the sharing done by [Clone] are visible; unsigned 64-bit sizes are [N]
    with the wrap-around written out; [float64] values are exact dyadic
    numbers rounded to 53 bits. *)

From Stdlib Require Import NArith ZArith List Bool Lia String Ascii.
From Stdlib Require Import DecimalString SpecFloat.
Import ListNotations.
Local Open Scope string_scope.
Local Open Scope list_scope.
Local Open Scope N_scope.

(* ================================================================== *)
(** * Part I: the embedding *)
(* ================================================================== *)

(** ** Strings *)

(** [strings.Contains s sub]. *)
Fixpoint Contains (s sub : string) : bool :=
  String.prefix sub s ||
  match s with
  | EmptyString => false
  | String _ s' => Contains s' sub
  end.

(** [fmt.Sprintf("%d", n)] for an unsigned value. *)
Definition fmt_d (n : N) : string := NilEmpty.string_of_uint (N.to_uint n).

(** ** Unsigned 64-bit arithmetic *)

Definition two64 : N := 18446744073709551616.

(** [a + b] on [uint64]. *)
Definition add64 (a b : N) : N := (a + b) mod two64.

(** [a - b] on [uint64] (operands below [two64]). *)
Definition sub64 (a b : N) : N := (a + two64 - b mod two64) mod two64.

(** ** Data model *)

(** A Go pointer that is not nil: an address of the store. *)
Definition loc := nat.
Bind Scope nat_scope with loc.

(** A Go slice value: [None] is the nil slice, [Some l] a slice holding [l]
    (possibly of length 0).  Used for [Children], whose backing arrays are
    never shared by the code below. *)
Definition slice (A : Type) := option (list A).

Definition elems {A} (s : slice A) : list A :=
  match s with
  | None => []
  | Some l => l
  end.

(** [append(s, x)]. *)
Definition append {A} (s : slice A) (x : A) : slice A := Some (elems s ++ [x]).

(** [BlockDeviceType]; the zero value is [BlockDeviceTypeDisk]. *)
Inductive BlockDeviceType :=
| BlockDeviceTypeDisk
| BlockDeviceTypePart
| BlockDeviceTypeRom
| BlockDeviceTypeLVM2Group
| BlockDeviceTypeLVM2Volume
| BlockDeviceTypeCrypt
| BlockDeviceTypeLoop
| BlockDeviceTypeUnknown.

Definition BlockDeviceType_eqb (a b : BlockDeviceType) : bool :=
  match a, b with
  | BlockDeviceTypeDisk, BlockDeviceTypeDisk
  | BlockDeviceTypePart, BlockDeviceTypePart
  | BlockDeviceTypeRom, BlockDeviceTypeRom
  | BlockDeviceTypeLVM2Group, BlockDeviceTypeLVM2Group
  | BlockDeviceTypeLVM2Volume, BlockDeviceTypeLVM2Volume
  | BlockDeviceTypeCrypt, BlockDeviceTypeCrypt
  | BlockDeviceTypeLoop, BlockDeviceTypeLoop
  | BlockDeviceTypeUnknown, BlockDeviceTypeUnknown => true
  | _, _ => false
  end.

(** [BlockDeviceState] is a Go [int].  The state constants are declared in
    the same [const] block as the type constants, so [iota] goes on counting:
    the four named states are 8 to 11 and the zero value names no state. *)
Definition BlockDeviceState := Z.
Definition BlockDeviceStateUnknown : BlockDeviceState := 8%Z.
Definition BlockDeviceStateRunning : BlockDeviceState := 9%Z.
Definition BlockDeviceStateLive : BlockDeviceState := 10%Z.
Definition BlockDeviceStateConnected : BlockDeviceState := 11%Z.

(** One row of a partition table ([PartedPartition]). *)
Module Parted.
Record PartedPartition := mkPart {
  Number : N;
  Start : N;
  End_ : N;
  Size : N;
  FileSystem : string;
  Name : string;
  Flags : string
}.
End Parted.
Abbreviation PartedPartition := Parted.PartedPartition.

(** A [BlockDevice].  [Children] holds pointers to the child nodes, [Parent]
    is a pointer or nil.  [PartTable] and [removedParts] are slice values
    that [Clone] copies as they are: they are modelled by the address of the
    backing array ([None] for the nil slice), so that two devices holding the
    same slice can be told from two devices holding equal rows. *)
Record BlockDevice := mkBlockDevice {
  Name : string;
  MappedName : string;
  Model : string;
  MajorMinor : string;
  PtType : string;
  FsType : string;
  UUID : string;
  Serial : string;
  MountPoint : string;
  Label : string;
  Size : N;
  Type_ : BlockDeviceType;
  State : BlockDeviceState;
  ReadOnly : bool;
  RemovableDevice : bool;
  Children : slice loc;
  Parent : option loc;
  UserDefined : bool;
  MakePartition : bool;
  FormatPartition : bool;
  Options : string;
  available : bool;
  partition : N;
  PartTable : option loc;
  removedParts : option loc
}.

(** The zero value [BlockDevice{}]. *)
Definition zeroBlockDevice : BlockDevice :=
  mkBlockDevice "" "" "" "" "" "" "" "" "" "" 0 BlockDeviceTypeDisk 0%Z
    false false None None false false false "" false 0 None None.

Definition set_Name (v : string) (b : BlockDevice) : BlockDevice :=
  mkBlockDevice v (MappedName b) (Model b) (MajorMinor b) (PtType b) (FsType b)
    (UUID b) (Serial b) (MountPoint b) (Label b) (Size b) (Type_ b) (State b)
    (ReadOnly b) (RemovableDevice b) (Children b) (Parent b) (UserDefined b)
    (MakePartition b) (FormatPartition b) (Options b) (available b)
    (partition b) (PartTable b) (removedParts b).

Definition set_Children (v : slice loc) (b : BlockDevice) : BlockDevice :=
  mkBlockDevice (Name b) (MappedName b) (Model b) (MajorMinor b) (PtType b)
    (FsType b) (UUID b) (Serial b) (MountPoint b) (Label b) (Size b) (Type_ b)
    (State b) (ReadOnly b) (RemovableDevice b) v (Parent b) (UserDefined b)
    (MakePartition b) (FormatPartition b) (Options b) (available b)
    (partition b) (PartTable b) (removedParts b).

Definition set_Parent (v : option loc) (b : BlockDevice) : BlockDevice :=
  mkBlockDevice (Name b) (MappedName b) (Model b) (MajorMinor b) (PtType b)
    (FsType b) (UUID b) (Serial b) (MountPoint b) (Label b) (Size b) (Type_ b)
    (State b) (ReadOnly b) (RemovableDevice b) (Children b) v (UserDefined b)
    (MakePartition b) (FormatPartition b) (Options b) (available b)
    (partition b) (PartTable b) (removedParts b).

Definition set_available (v : bool) (b : BlockDevice) : BlockDevice :=
  mkBlockDevice (Name b) (MappedName b) (Model b) (MajorMinor b) (PtType b)
    (FsType b) (UUID b) (Serial b) (MountPoint b) (Label b) (Size b) (Type_ b)
    (State b) (ReadOnly b) (RemovableDevice b) (Children b) (Parent b)
    (UserDefined b) (MakePartition b) (FormatPartition b) (Options b) v
    (partition b) (PartTable b) (removedParts b).

Definition set_partition (v : N) (b : BlockDevice) : BlockDevice :=
  mkBlockDevice (Name b) (MappedName b) (Model b) (MajorMinor b) (PtType b)
    (FsType b) (UUID b) (Serial b) (MountPoint b) (Label b) (Size b) (Type_ b)
    (State b) (ReadOnly b) (RemovableDevice b) (Children b) (Parent b)
    (UserDefined b) (MakePartition b) (FormatPartition b) (Options b)
    (available b) v (PartTable b) (removedParts b).

Definition set_PartTable (v : option loc) (b : BlockDevice) : BlockDevice :=
  mkBlockDevice (Name b) (MappedName b) (Model b) (MajorMinor b) (PtType b)
    (FsType b) (UUID b) (Serial b) (MountPoint b) (Label b) (Size b) (Type_ b)
    (State b) (ReadOnly b) (RemovableDevice b) (Children b) (Parent b)
    (UserDefined b) (MakePartition b) (FormatPartition b) (Options b)
    (available b) (partition b) v (removedParts b).

Definition set_Model (v : string) (b : BlockDevice) : BlockDevice :=
  mkBlockDevice (Name b) (MappedName b) v (MajorMinor b) (PtType b) (FsType
    b) (UUID b) (Serial b) (MountPoint b) (Label b) (Size b) (Type_ b)
    (State b) (ReadOnly b) (RemovableDevice b) (Children b) (Parent b)
    (UserDefined b) (MakePartition b) (FormatPartition b) (Options b)
    (available b) (partition b) (PartTable b) (removedParts b).

Definition set_MajorMinor (v : string) (b : BlockDevice) : BlockDevice :=
  mkBlockDevice (Name b) (MappedName b) (Model b) v (PtType b) (FsType b)
    (UUID b) (Serial b) (MountPoint b) (Label b) (Size b) (Type_ b) (State
    b) (ReadOnly b) (RemovableDevice b) (Children b) (Parent b) (UserDefined
    b) (MakePartition b) (FormatPartition b) (Options b) (available b)
    (partition b) (PartTable b) (removedParts b).

Definition set_PtType (v : string) (b : BlockDevice) : BlockDevice :=
  mkBlockDevice (Name b) (MappedName b) (Model b) (MajorMinor b) v (FsType
    b) (UUID b) (Serial b) (MountPoint b) (Label b) (Size b) (Type_ b)
    (State b) (ReadOnly b) (RemovableDevice b) (Children b) (Parent b)
    (UserDefined b) (MakePartition b) (FormatPartition b) (Options b)
    (available b) (partition b) (PartTable b) (removedParts b).

Definition set_FsType (v : string) (b : BlockDevice) : BlockDevice :=
  mkBlockDevice (Name b) (MappedName b) (Model b) (MajorMinor b) (PtType b)
    v (UUID b) (Serial b) (MountPoint b) (Label b) (Size b) (Type_ b) (State
    b) (ReadOnly b) (RemovableDevice b) (Children b) (Parent b) (UserDefined
    b) (MakePartition b) (FormatPartition b) (Options b) (available b)
    (partition b) (PartTable b) (removedParts b).

Definition set_UUID (v : string) (b : BlockDevice) : BlockDevice :=
  mkBlockDevice (Name b) (MappedName b) (Model b) (MajorMinor b) (PtType b)
    (FsType b) v (Serial b) (MountPoint b) (Label b) (Size b) (Type_ b)
    (State b) (ReadOnly b) (RemovableDevice b) (Children b) (Parent b)
    (UserDefined b) (MakePartition b) (FormatPartition b) (Options b)
    (available b) (partition b) (PartTable b) (removedParts b).

Definition set_Serial (v : string) (b : BlockDevice) : BlockDevice :=
  mkBlockDevice (Name b) (MappedName b) (Model b) (MajorMinor b) (PtType b)
    (FsType b) (UUID b) v (MountPoint b) (Label b) (Size b) (Type_ b) (State
    b) (ReadOnly b) (RemovableDevice b) (Children b) (Parent b) (UserDefined
    b) (MakePartition b) (FormatPartition b) (Options b) (available b)
    (partition b) (PartTable b) (removedParts b).

Definition set_MountPoint (v : string) (b : BlockDevice) : BlockDevice :=
  mkBlockDevice (Name b) (MappedName b) (Model b) (MajorMinor b) (PtType b)
    (FsType b) (UUID b) (Serial b) v (Label b) (Size b) (Type_ b) (State b)
    (ReadOnly b) (RemovableDevice b) (Children b) (Parent b) (UserDefined b)
    (MakePartition b) (FormatPartition b) (Options b) (available b)
    (partition b) (PartTable b) (removedParts b).

Definition set_Label (v : string) (b : BlockDevice) : BlockDevice :=
  mkBlockDevice (Name b) (MappedName b) (Model b) (MajorMinor b) (PtType b)
    (FsType b) (UUID b) (Serial b) (MountPoint b) v (Size b) (Type_ b)
    (State b) (ReadOnly b) (RemovableDevice b) (Children b) (Parent b)
    (UserDefined b) (MakePartition b) (FormatPartition b) (Options b)
    (available b) (partition b) (PartTable b) (removedParts b).

Definition set_Size (v : N) (b : BlockDevice) : BlockDevice :=
  mkBlockDevice (Name b) (MappedName b) (Model b) (MajorMinor b) (PtType b)
    (FsType b) (UUID b) (Serial b) (MountPoint b) (Label b) v (Type_ b)
    (State b) (ReadOnly b) (RemovableDevice b) (Children b) (Parent b)
    (UserDefined b) (MakePartition b) (FormatPartition b) (Options b)
    (available b) (partition b) (PartTable b) (removedParts b).

Definition set_Type_ (v : BlockDeviceType) (b : BlockDevice) : BlockDevice :=
  mkBlockDevice (Name b) (MappedName b) (Model b) (MajorMinor b) (PtType b)
    (FsType b) (UUID b) (Serial b) (MountPoint b) (Label b) (Size b) v
    (State b) (ReadOnly b) (RemovableDevice b) (Children b) (Parent b)
    (UserDefined b) (MakePartition b) (FormatPartition b) (Options b)
    (available b) (partition b) (PartTable b) (removedParts b).

Definition set_State (v : BlockDeviceState) (b : BlockDevice) : BlockDevice :=
  mkBlockDevice (Name b) (MappedName b) (Model b) (MajorMinor b) (PtType b)
    (FsType b) (UUID b) (Serial b) (MountPoint b) (Label b) (Size b) (Type_
    b) v (ReadOnly b) (RemovableDevice b) (Children b) (Parent b)
    (UserDefined b) (MakePartition b) (FormatPartition b) (Options b)
    (available b) (partition b) (PartTable b) (removedParts b).

Definition set_ReadOnly (v : bool) (b : BlockDevice) : BlockDevice :=
  mkBlockDevice (Name b) (MappedName b) (Model b) (MajorMinor b) (PtType b)
    (FsType b) (UUID b) (Serial b) (MountPoint b) (Label b) (Size b) (Type_
    b) (State b) v (RemovableDevice b) (Children b) (Parent b) (UserDefined
    b) (MakePartition b) (FormatPartition b) (Options b) (available b)
    (partition b) (PartTable b) (removedParts b).

Definition set_RemovableDevice (v : bool) (b : BlockDevice) : BlockDevice :=
  mkBlockDevice (Name b) (MappedName b) (Model b) (MajorMinor b) (PtType b)
    (FsType b) (UUID b) (Serial b) (MountPoint b) (Label b) (Size b) (Type_
    b) (State b) (ReadOnly b) v (Children b) (Parent b) (UserDefined b)
    (MakePartition b) (FormatPartition b) (Options b) (available b)
    (partition b) (PartTable b) (removedParts b).

(** ** The store *)

(** Everything the code reaches through a pointer: the [BlockDevice] nodes,
    the [PartedPartition] rows and the backing arrays of the [PartTable]
    slices (arrays of row pointers).  Addresses below [next] are allocated;
    [new] hands out [next].  Reading is total, as dereferencing a valid Go
    pointer is. *)
Record Store := mkStore {
  devs : loc -> BlockDevice;
  rows : loc -> PartedPartition;
  tables : loc -> list loc;
  next : loc
}.

Definition upd {A} (f : loc -> A) (p : loc) (v : A) : loc -> A :=
  fun q => if Nat.eqb q p then v else f q.

(** [*p = b] for a device pointer. *)
Definition store_dev (h : Store) (p : loc) (b : BlockDevice) : Store :=
  mkStore (upd (devs h) p b) (rows h) (tables h) (next h).

(** [p := &BlockDevice{...}]. *)
Definition new_dev (h : Store) (b : BlockDevice) : Store * loc :=
  (mkStore (upd (devs h) (next h) b) (rows h) (tables h) (S (next h)), next h).

(** [p := &PartedPartition{...}]. *)
Definition new_row (h : Store) (r : PartedPartition) : Store * loc :=
  (mkStore (devs h) (upd (rows h) (next h) r) (tables h) (S (next h)), next h).

(** A fresh backing array for a [PartTable] slice. *)
Definition new_table (h : Store) (t : list loc) : Store * loc :=
  (mkStore (devs h) (rows h) (upd (tables h) (next h) t) (S (next h)), next h).

(** Field update through a pointer: [p.f = v]. *)
Definition modify (h : Store) (p : loc) (f : BlockDevice -> BlockDevice) : Store :=
  store_dev h p (f (devs h p)).

(** The rows of a device's partition table, in table order. *)
Definition table_rows (h : Store) (bd : loc) : list loc :=
  match PartTable (devs h bd) with
  | None => []
  | Some t => tables h t
  end.

(** ** Errors *)

(** The error values the code builds, one constructor per [errors.Errorf]
    site (the message is given next to each). *)
Inductive error :=
| ErrBootEncrypted      (* "Encryption of /boot is not supported" *)
| ErrBothSizesZero      (* "Both image size and partition size cannot be 0" *)
| ErrNoEFI              (* "Could not find a suitable EFI partition" *)
| ErrNoRoot             (* "Could not find a root partition" *)
| ErrMissingPassphrase  (* "Encrypted file system enabled, but missing passphase" *)
| ErrPartitionSizes (name : string) (childSize diskSize : N)
                        (* "%s: Partition Sizes %d larger than Device Size: %d" *)
| ErrFormatSize         (* "Could not format disk/partition size" *)
| ErrParseFloat         (* strconv.ParseFloat: syntax or range error, wrapped *)
| ErrParseUint          (* strconv.ParseUint: syntax or range error *)
| ErrTokenString (name : string)
                        (* "\"%s\" token should have a string value" *)
| ErrTokenBool (name : string)
                        (* "\"%s\" token is neither a boolean nor a string value" *)
| ErrUnknownRo (str : string)
                        (* "Unknown ro value: %s" *)
| ErrInt64              (* json.Number.Int64: the number is no int64 *)
| ErrBlockDeviceType (bdt : string)
                        (* "Unknown block device type: %s" *)
| ErrBlockDeviceState (bds : string)
                        (* "Unrecognized block device state: %s" *)
| ErrInvalidChildren    (* "Invalid \"children\" token: %s" *)
| ErrUnmarshal          (* json.Unmarshal: the document has not the shape of the target *)
| ErrOutsideModel.      (* not an error of the code: a case the embedding leaves out *)

(** A Go result [(v, err)]. *)
Inductive result (A : Type) :=
| Ok (v : A)
| Err (e : error).
Arguments Ok {A} v.
Arguments Err {A} e.

(** ** Validate *)

(** [bd.FsTypeNotSwap()]. *)
Definition FsTypeNotSwap (bd : BlockDevice) : bool := negb (FsType bd =? "swap")%string.

(** The flags [Validate] accumulates over the children. *)
Record vflags := mkVflags {
  bootPartition : bool;
  rootPartition : bool;
  encrypted : bool
}.

(** The [for _, ch := range bd.Children] loop of [Validate]: an error leaves
    the function at once, otherwise the flags go on to the next child. *)
Fixpoint Validate_loop (h : Store) (bd : BlockDevice) (chs : list loc) (f : vflags)
  : error + vflags :=
  match chs with
  | [] => inr f
  | c :: rest =>
    let ch := devs h c in
    let isBoot := ((FsType ch =? "vfat") && (MountPoint ch =? "/boot"))%string in
    if isBoot && BlockDeviceType_eqb (Type_ ch) BlockDeviceTypeCrypt
    then inl ErrBootEncrypted
    else
      let f1 := mkVflags (isBoot || bootPartition f)
                  ((MountPoint ch =? "/")%string || rootPartition f)
                  ((BlockDeviceType_eqb (Type_ ch) BlockDeviceTypeCrypt && FsTypeNotSwap ch)
                   || encrypted f) in
      if negb (BlockDeviceType_eqb (Type_ bd) BlockDeviceTypeDisk)
         && (Size bd =? 0) && (Size ch =? 0)
      then inl ErrBothSizesZero
      else Validate_loop h bd rest f1
  end.

(** [bd.Validate(legacyBios, cryptPass)]; [None] is the nil error. *)
Definition Validate (h : Store) (bd : loc) (legacyBios : bool) (cryptPass : string)
  : option error :=
  match Validate_loop h (devs h bd) (elems (Children (devs h bd)))
          (mkVflags false false false) with
  | inl e => Some e
  | inr f =>
    if negb (bootPartition f) && negb legacyBios then Some ErrNoEFI
    else if negb (rootPartition f) then Some ErrNoRoot
    else if encrypted f && (cryptPass =? "")%string then Some ErrMissingPassphrase
    else None
  end.

(** ** Partition tables: findFree *)

(** [part.Clone()]: a new row with the same fields. *)
Definition PartedPartition_Clone (h : Store) (part : loc) : Store * loc :=
  let r := rows h part in
  new_row h (Parted.mkPart (Parted.Number r) (Parted.Start r) (Parted.End_ r)
               (Parted.Size r) (Parted.FileSystem r) (Parted.Name r) (Parted.Flags r)).

(** The scan of [findFree]: the live row at which the loop breaks, if any. *)
Fixpoint findFree_scan (h : Store) (table : list loc) (size : N) : option loc :=
  match table with
  | [] => None
  | part :: rest =>
    if (Parted.Number (rows h part) =? 0)
       && (Parted.FileSystem (rows h part) =? "free")%string
    then
      if size <=? Parted.Size (rows h part)
      then Some part
      else findFree_scan h rest size
    else findFree_scan h rest size
  end.

(** [bd.findFree(size)]: the pointer returned ([None] is nil) and the store,
    in which the clone has been allocated. *)
Definition findFree (h : Store) (bd : loc) (size : N) : Store * option loc :=
  match findFree_scan h (table_rows h bd) size with
  | Some part => let (h', freePart) := PartedPartition_Clone h part in (h', Some freePart)
  | None => (h, None)
  end.

(** ** Clone *)

(** The struct literal of [Clone]: every field it lists is copied, the
    others ([PtType], [Children], [Options]) keep their zero value. *)
Definition Clone_literal (bd : BlockDevice) : BlockDevice :=
  mkBlockDevice (Name bd) (MappedName bd) (Model bd) (MajorMinor bd) ""
    (FsType bd) (UUID bd) (Serial bd) (MountPoint bd) (Label bd) (Size bd)
    (Type_ bd) (State bd) (ReadOnly bd) (RemovableDevice bd) None (Parent bd)
    (UserDefined bd) (MakePartition bd) (FormatPartition bd) "" (available bd)
    (partition bd) (PartTable bd) (removedParts bd).

(** The loop of [Clone] over the children, [rec] being the recursive call. *)
Fixpoint Clone_children (rec : Store -> loc -> option (Store * loc))
  (h : Store) (clone : loc) (chs : list loc) : option Store :=
  match chs with
  | [] => Some h
  | curr :: rest =>
    match rec h curr with
    | None => None
    | Some (h1, cc) =>
      let h2 := modify h1 cc (set_Parent (Some clone)) in
      let h3 := modify h2 clone (fun b => set_Children (append (Children b) cc) b) in
      Clone_children rec h3 clone rest
    end
  end.

(** [bd.Clone()].  The recursion follows pointers, so it is bounded by
    [fuel]: [None] means the fuel ran out (on a tree, fuel above the depth is
    enough, see [Clone_total]). *)
Fixpoint Clone (fuel : nat) (h : Store) (bd : loc) : option (Store * loc) :=
  match fuel with
  | O => None
  | S fuel' =>
    let (h1, clone) := new_dev h (Clone_literal (devs h bd)) in
    let h2 := modify h1 clone (set_Children (Some [])) in
    match Clone_children (Clone fuel') h2 clone (elems (Children (devs h2 bd))) with
    | None => None
    | Some h3 => Some (h3, clone)
    end
  end.

(** ** AddChild and RemoveChild *)

(** [bd.getBasePartitionName()]. *)
Definition getBasePartitionName (bd : BlockDevice) : string :=
  let partPrefix :=
    if BlockDeviceType_eqb (Type_ bd) BlockDeviceTypeLoop
       || Contains (Name bd) "nvme" || Contains (Name bd) "mmcblk"
    then "p" else "" in
  (Name bd ++ partPrefix)%string.

(** [bd.AddChild(child)]. *)
Definition AddChild (h : Store) (bd child : loc) : Store :=
  let h1 := match Children (devs h bd) with
            | None => modify h bd (set_Children (Some []))
            | Some _ => h
            end in
  let h2 := modify h1 child (set_Parent (Some bd)) in
  let h3 := modify h2 bd (fun b => set_Children (append (Children b) child) b) in
  if (Name (devs h3 child) =? "")%string then
    if partition (devs h3 child) <? 1
    then modify h3 child (set_Name (getBasePartitionName (devs h3 bd) ++ "?")%string)
    else modify h3 child
           (set_Name (getBasePartitionName (devs h3 bd)
                      ++ fmt_d (partition (devs h3 child)))%string)
  else h3.

(** The loop of [RemoveChild] over the children of the copy. *)
Fixpoint RemoveChild_loop (h : Store) (bd child : loc) (cs : list loc) : Store :=
  match cs with
  | [] => h
  | curr :: rest =>
    if (Name (devs h curr) =? Name (devs h child))%string
    then RemoveChild_loop (modify h child (set_Parent None)) bd child rest
    else
      let h1 := modify h curr (set_Name "") in
      RemoveChild_loop (AddChild h1 bd curr) bd child rest
  end.

(** [bd.RemoveChild(child)]; [None] when the fuel given to [Clone] ran out. *)
Definition RemoveChild (fuel : nat) (h : Store) (bd child : loc) : option Store :=
  match Clone fuel h bd with
  | None => None
  | Some (h1, copyBd) =>
    let h2 := modify h1 bd (set_Children None) in
    Some (RemoveChild_loop h2 bd child (elems (Children (devs h2 copyBd))))
  end.

(** ** DiskSize *)

(** The loop of [DiskSize] over the children; [rec] is the recursive call
    and [childSize] the running [uint64] sum. *)
Fixpoint DiskSize_children (rec : loc -> option (result N)) (h : Store)
  (chs : list loc) (childSize : N) : option (result N) :=
  match chs with
  | [] => Some (Ok childSize)
  | ch :: rest =>
    if (0 <? List.length (elems (Children (devs h ch))))%nat then
      match rec ch with
      | None => None
      | Some (Err e) => Some (Err e)
      | Some (Ok size) => DiskSize_children rec h rest (add64 childSize size)
      end
    else DiskSize_children rec h rest (add64 childSize (Size (devs h ch)))
  end.

(** [bd.DiskSize()]; the outer [None] means the fuel ran out. *)
Fixpoint DiskSize (fuel : nat) (h : Store) (bd : loc) : option (result N) :=
  match fuel with
  | O => None
  | S fuel' =>
    let diskSize := Size (devs h bd) in
    match DiskSize_children (DiskSize fuel' h) h (elems (Children (devs h bd))) 0 with
    | None => None
    | Some (Err e) => Some (Err e)
    | Some (Ok childSize) =>
      if (0 <? diskSize) && (diskSize <? childSize)
      then Some (Err (ErrPartitionSizes (Name (devs h bd)) childSize diskSize))
      else if 0 <? diskSize then Some (Ok diskSize)
      else Some (Ok childSize)
    end
  end.

(** ** Merging discovered and user-defined devices *)

(** A Go pointer that may be nil. *)
Definition ptr := option loc.

(** [bd.Equals(cmp)]. *)
Definition Equals (h : Store) (bd : loc) (cmp : ptr) : bool :=
  match cmp with
  | None => false
  | Some c =>
    (Name (devs h bd) =? Name (devs h c))%string
    && (Model (devs h bd) =? Model (devs h c))%string
    && (MajorMinor (devs h bd) =? MajorMinor (devs h c))%string
  end.

(** The inner loop of the merge: the entry appended for [loaded]. *)
Fixpoint merge_one (h : Store) (loaded : loc) (userDefined : list ptr) : ptr :=
  match userDefined with
  | [] => Some loaded
  | udef :: rest =>
    if negb (Equals h loaded udef)
    then merge_one h loaded rest
    else udef
  end.

(** [listBlockDevices(userDefined)] from the point where the probes have
    returned: [bds] is the list decoded from the device listing. *)
Definition listBlockDevices (h : Store) (bds : list loc) (userDefined : slice ptr)
  : list ptr :=
  if (List.length (elems userDefined) =? 0)%nat
  then map Some bds
  else map (fun loaded => merge_one h loaded (elems userDefined)) bds.

(** ** The standard layout *)

Definition bootSize : N := 150 * (1000 * 1000).
Definition swapSize : N := 256 * (1000 * 1000).

(** Modelled from the spec: [AddFromFreePartition], which [storage.go] calls
    and does not define.  The spec says that the planner allocates "by
    finding first-fit free regions and attaching them as children", that a
    region too small leaves the device with "a missing/nil child for that
    role", and that table rows are "never mutated in place"; so a nil
    [parted] attaches nothing, and otherwise [child] is attached with
    [AddChild].  The spec does not say whether the region found is then taken
    off the table, and [carve] selects the reading: with [carve = false] the
    table is left as it is; with [carve = true] the device gets a new table in
    which every free row that starts where [parted] starts is replaced by a
    new free row for what is left of it behind the new partition. *)
Fixpoint carve_rows (h : Store) (table : list loc) (start size : N)
  : Store * list loc :=
  match table with
  | [] => (h, [])
  | part :: rest =>
    let r := rows h part in
    if (Parted.Number r =? 0) && (Parted.FileSystem r =? "free")%string
       && (Parted.Start r =? start)
    then
      let (h1, left) :=
        new_row h (Parted.mkPart 0 (add64 (Parted.Start r) size) (Parted.End_ r)
                     (sub64 (Parted.Size r) size) "free" "" "") in
      let (h2, rest') := carve_rows h1 rest start size in
      (h2, left :: rest')
    else
      let (h2, rest') := carve_rows h rest start size in
      (h2, part :: rest')
  end.

Definition AddFromFreePartition (carve : bool) (h : Store) (bd : loc)
  (parted : option loc) (child : loc) : Store :=
  match parted with
  | None => h
  | Some free =>
    let h1 :=
      if carve then
        let (h2, table') :=
          carve_rows h (table_rows h bd) (Parted.Start (rows h free))
            (Size (devs h child)) in
        let (h3, t) := new_table h2 table' in
        modify h3 bd (set_PartTable (Some t))
      else h in
    AddChild h1 bd child
  end.

(** The struct literal the planner passes for a new partition. *)
Definition standardPartition (size : N) (fsType mountPoint label : string)
  : BlockDevice :=
  mkBlockDevice "" "" "" "" "" fsType "" "" mountPoint label size
    BlockDeviceTypePart 0%Z false false None None true true true "" false 0
    None None.

(** The first five statements of [NewStandardPartitions]: children dropped,
    the table replaced by one free row over the whole disk. *)
Definition NewStandardPartitions_reset (h : Store) (disk : loc) : Store :=
  let h1 := modify h disk (set_Children None) in
  let (h2, newFreePart) :=
    new_row h1 (Parted.mkPart 0 0 (Size (devs h1 disk)) (Size (devs h1 disk))
                  "free" "" "") in
  let h3 := modify h2 disk (set_PartTable None) in
  let (h4, t) := new_table h3 [newFreePart] in
  modify h4 disk (set_PartTable (Some t)).

(** [NewStandardPartitions(disk)]. *)
Definition NewStandardPartitions (carve : bool) (h : Store) (disk : loc) : Store :=
  let h0 := NewStandardPartitions_reset h disk in
  let rootSize := sub64 (sub64 (Size (devs h0 disk)) bootSize) swapSize in
  let (h1, freePart1) := findFree h0 disk bootSize in
  let (h2, boot) := new_dev h1 (standardPartition bootSize "vfat" "/boot" "boot") in
  let h3 := AddFromFreePartition carve h2 disk freePart1 boot in
  let (h4, freePart2) := findFree h3 disk swapSize in
  let (h5, swap) := new_dev h4 (standardPartition swapSize "swap" "" "swap") in
  let h6 := AddFromFreePartition carve h5 disk freePart2 swap in
  let (h7, freePart3) := findFree h6 disk rootSize in
  let (h8, root) := new_dev h7 (standardPartition rootSize "ext4" "/" "root") in
  AddFromFreePartition carve h8 disk freePart3 root.

(** ** float64 *)

(** The [float64] values the size functions meet are never negative and never
    NaN: a finite value [m * 2^e] with [0 <= m], or +Inf.  A value may have
    several such pairs; the operations below round to 53 bits as IEEE 754
    does (to nearest, ties to even) and compare by value. *)
Inductive float64 :=
| Finite (m e : Z)
| Inf.

Local Open Scope Z_scope.

(** The nearest integer to [num / den], ties to even ([0 <= num], [0 < den]). *)
Definition round_div (num den : Z) : Z :=
  let q := num / den in
  let r := num mod den in
  if 2 * r <? den then q
  else if den <? 2 * r then q + 1
  else if Z.even q then q else q + 1.

(** A finite result that no longer fits the exponent range is +Inf. *)
Definition overflow (f : float64) : float64 :=
  match f with
  | Finite m e =>
    if (0 <=? e) && (2 ^ 1024 <=? m * 2 ^ e) then Inf else Finite m e
  | Inf => Inf
  end.

(** [m * 2^e] rounded to a 53-bit mantissa: nothing to do when [m] has at
    most 53 bits, otherwise the low bits are rounded off. *)
Definition round_dyadic (m e : Z) : float64 :=
  let bits := Z.log2 m + 1 in
  if bits <=? 53 then Finite m e
  else
    let k := bits - 53 in
    overflow (Finite (round_div m (2 ^ k)) (e + k)).

(** The [float64] nearest to the rational [num / den] ([0 <= num],
    [0 < den]): the exponent is chosen so that the mantissa has 53 bits, or is
    the smallest exponent, -1074, for a subnormal result. *)
Definition round_rat (num den : Z) : float64 :=
  if num =? 0 then Finite 0 0
  else
    let l := Z.log2 num - Z.log2 den in
    (* [lg] is the integer with [2^lg <= num/den < 2^(lg+1)] *)
    let lg :=
      if 0 <=? l
      then (if den * 2 ^ l <=? num then l else l - 1)
      else (if den <=? num * 2 ^ (- l) then l else l - 1) in
    let e := Z.max (lg - 52) (-1074) in
    let m :=
      if 0 <=? e then round_div num (den * 2 ^ e)
      else round_div (num * 2 ^ (- e)) den in
    overflow (Finite m e).

(** [float64(n)] for an unsigned integer. *)
Definition float64_of_uint (n : N) : float64 := round_dyadic (Z.of_N n) 0.

(** [x * y]. *)
Definition fmul (x y : float64) : float64 :=
  match x, y with
  | Finite m1 e1, Finite m2 e2 => round_dyadic (m1 * m2) (e1 + e2)
  | _, _ => Inf
  end.

(** [x / y], for [y] finite and not zero. *)
Definition fdiv (x y : float64) : float64 :=
  match x, y with
  | Finite m1 e1, Finite m2 e2 =>
    let e := e1 - e2 in
    if 0 <=? e then round_rat (m1 * 2 ^ e) m2
    else round_rat m1 (m2 * 2 ^ (- e))
  | _, _ => Inf
  end.

(** [x < y]. *)
Definition fltb (x y : float64) : bool :=
  match x, y with
  | Finite m1 e1, Finite m2 e2 =>
    let e := Z.min e1 e2 in
    m1 * 2 ^ (e1 - e) <? m2 * 2 ^ (e2 - e)
  | Finite _ _, Inf => true
  | Inf, _ => false
  end.

(** [math.Round(x)] as an integer (half away from zero); [None] for +Inf. *)
Definition Round (x : float64) : option Z :=
  match x with
  | Finite m e =>
    if 0 <=? e then Some (m * 2 ^ e)
    else Some ((m + 2 ^ (- e - 1)) / 2 ^ (- e))
  | Inf => None
  end.

(** [uint64(math.Round(x))].  When the value does not fit (or is +Inf) the Go
    specification leaves the result of the conversion to the implementation:
    [None]. *)
Definition uint64_of_Round (x : float64) : option N :=
  match Round x with
  | Some z => if z <? 2 ^ 64 then Some (Z.to_N z) else None
  | None => None
  end.

Local Close Scope Z_scope.

(** ** Strings of the size functions *)

(** [strings.ToLower] and [strings.ToUpper], on ASCII strings. *)
Definition lower_ascii (c : ascii) : ascii :=
  let n := N_of_ascii c in
  if (65 <=? n) && (n <=? 90) then ascii_of_N (n + 32) else c.

Definition upper_ascii (c : ascii) : ascii :=
  let n := N_of_ascii c in
  if (97 <=? n) && (n <=? 122) then ascii_of_N (n - 32) else c.

Fixpoint ToLower (s : string) : string :=
  match s with
  | EmptyString => EmptyString
  | String c s' => String (lower_ascii c) (ToLower s')
  end.

Fixpoint ToUpper (s : string) : string :=
  match s with
  | EmptyString => EmptyString
  | String c s' => String (upper_ascii c) (ToUpper s')
  end.

Definition is_digit (c : ascii) : bool :=
  let n := N_of_ascii c in (48 <=? n) && (n <=? 57).

(** A string of decimal digits only. *)
Fixpoint all_digits (s : string) : bool :=
  match s with
  | EmptyString => true
  | String c s' => is_digit c && all_digits s'
  end.

(** The longest prefix of decimal digits, and what follows it. *)
Fixpoint span_digits (s : string) : string * string :=
  match s with
  | EmptyString => (EmptyString, EmptyString)
  | String c s' =>
    if is_digit c
    then let (d, r) := span_digits s' in (String c d, r)
    else (EmptyString, s)
  end.

(** The value of a string of decimal digits. *)
Fixpoint digits_value_from (acc : Z) (s : string) : Z :=
  match s with
  | EmptyString => acc
  | String c s' => digits_value_from (10 * acc + (Z.of_N (N_of_ascii c) - 48))%Z s'
  end.

Definition digits_value (s : string) : Z := digits_value_from 0 s.

(** [storageExp]: the whole text must be digits, at most one dot, digits,
    then at most one unit letter out of b, k, m, g, t, p.  On a match, group
    1 (the number, dot included) and group 3 (the unit letter, or the empty
    string when there is none).  The pattern leaves the matcher no choice
    that changes the groups. *)
Definition is_unit (c : ascii) : bool :=
  match c with
  | "b" | "k" | "m" | "g" | "t" | "p" => true
  | _ => false
  end%char.

Definition storageExp (s : string) : option (string * string) :=
  let (d1, r1) := span_digits s in
  let (dot, r2) :=
    match r1 with
    | String "."%char r => (".", r)
    | _ => ("", r1)
    end in
  let (d2, r3) := span_digits r2 in
  match r3 with
  | EmptyString => Some (d1 ++ dot ++ d2, "")%string
  | String c EmptyString =>
    if is_unit c then Some (d1 ++ dot ++ d2, String c EmptyString)%string else None
  | _ => None
  end.

(** [strconv.ParseFloat(s, 64)] on the strings group 1 of [storageExp] can
    hold (digits with at most one dot): the nearest [float64]; [None] is an
    error, for a string without a digit (syntax) and for a value that rounds
    to +Inf (range). *)
Definition ParseFloat (s : string) : option float64 :=
  let (d1, r1) := span_digits s in
  let r2 :=
    match r1 with
    | String "."%char r => r
    | _ => r1
    end in
  let (d2, r3) := span_digits r2 in
  match r3 with
  | EmptyString =>
    if (String.length d1 + String.length d2 =? 0)%nat then None
    else
      match round_rat (digits_value (d1 ++ d2)) (10 ^ Z.of_nat (String.length d2)) with
      | Inf => None
      | x => Some x
      end
  | _ => None
  end.

(** The byte-level [lower] of [strconv]: [c | 0x20]. *)
Definition lower_byte (c : ascii) : ascii := ascii_of_N (N.lor (N_of_ascii c) 32).

(** The digit value of a byte in [ParseUint], if it is a digit or a letter. *)
Definition digit_of (c : ascii) : option N :=
  let n := N_of_ascii c in
  let l := N_of_ascii (lower_byte c) in
  if (48 <=? n) && (n <=? 57) then Some (n - 48)
  else if (97 <=? l) && (l <=? 122) then Some (l - 97 + 10)
  else None.

(** The digit loop of [ParseUint] in base 0: [None] on a syntax error, the
    unbounded value and whether an underscore was seen otherwise. *)
Fixpoint ParseUint_digits (base : N) (s : string) (n : N) (underscores : bool)
  : option (N * bool) :=
  match s with
  | EmptyString => Some (n, underscores)
  | String c s' =>
    if Ascii.eqb c "_" then ParseUint_digits base s' n true
    else
      match digit_of c with
      | None => None
      | Some d =>
        if base <=? d then None
        else ParseUint_digits base s' (n * base + d) underscores
      end
  end.

(** The scan of [underscoreOK]; [saw] is the last thing seen: "^" for the
    beginning, "0" for a digit or a base prefix, "_" for an underscore, "!"
    for anything else. *)
Fixpoint underscoreOK_scan (hex : bool) (saw : ascii) (s : string) : bool :=
  match s with
  | EmptyString => negb (Ascii.eqb saw "_")
  | String c s' =>
    let l := N_of_ascii (lower_byte c) in
    if is_digit c || (hex && (97 <=? l) && (l <=? 102))
    then underscoreOK_scan hex "0" s'
    else if Ascii.eqb c "_"
    then (if Ascii.eqb saw "0" then underscoreOK_scan hex "_" s' else false)
    else if Ascii.eqb saw "_" then false
    else underscoreOK_scan hex "!" s'
  end.

Definition underscoreOK (s : string) : bool :=
  let s :=
    match s with
    | String c s' => if Ascii.eqb c "-" || Ascii.eqb c "+" then s' else s
    | _ => s
    end in
  match s with
  | String "0"%char (String p s') =>
    let lp := lower_byte p in
    if Ascii.eqb lp "b" || Ascii.eqb lp "o" || Ascii.eqb lp "x"
    then underscoreOK_scan (Ascii.eqb lp "x") "0" s'
    else underscoreOK_scan false "^" s
  | _ => underscoreOK_scan false "^" s
  end.

(** [strconv.ParseUint(s, 0, 64)]: the base is read off the prefix, an
    underscore may separate digits, the value must fit 64 bits. *)
Definition ParseUint (s : string) : result N :=
  match s with
  | EmptyString => Err ErrParseUint
  | String c0 rest =>
    let (base, digits) :=
      if Ascii.eqb c0 "0" then
        match rest with
        | String p (String c2 rest') =>
          let lp := lower_byte p in
          if Ascii.eqb lp "b" then (2, String c2 rest')
          else if Ascii.eqb lp "o" then (8, String c2 rest')
          else if Ascii.eqb lp "x" then (16, String c2 rest')
          else (8, rest)
        | _ => (8, rest)
        end
      else (10, s) in
    match ParseUint_digits base digits 0 false with
    | None => Err ErrParseUint
    | Some (n, underscores) =>
      if two64 <=? n then Err ErrParseUint
      else if underscores && negb (underscoreOK s) then Err ErrParseUint
      else Ok n
    end
  end.

(** ** ParseVolumeSize and ParseVolumeHumanSize *)

(** The [switch unit] of [ParseVolumeSize]: the binary scale. *)
Definition binary_scale (unit : string) : option Z :=
  if (unit =? "b")%string then Some (2 ^ 0)%Z
  else if (unit =? "k")%string then Some (2 ^ 10)%Z
  else if (unit =? "m")%string then Some (2 ^ 20)%Z
  else if (unit =? "g")%string then Some (2 ^ 30)%Z
  else if (unit =? "t")%string then Some (2 ^ 40)%Z
  else if (unit =? "p")%string then Some (2 ^ 50)%Z
  else None.

(** The [switch unit] of [ParseVolumeHumanSize]: the decimal scale. *)
Definition decimal_scale (unit : string) : option Z :=
  if (unit =? "b")%string then Some 1%Z
  else if (unit =? "k")%string then Some 1000%Z
  else if (unit =? "m")%string then Some (1000 * 1000)%Z
  else if (unit =? "g")%string then Some (1000 * 1000 * 1000)%Z
  else if (unit =? "t")%string then Some (1000 * 1000 * 1000 * 1000)%Z
  else if (unit =? "p")%string then Some (1000 * 1000 * 1000 * 1000 * 1000)%Z
  else None.

(** The body the two parsers share, [scale] being the switch.  The outer
    [None] stands for the one case Go leaves open: the rounded value does not
    fit [uint64]. *)
Definition parseVolume (scale : string -> option Z) (str : string)
  : option (result N) :=
  let str := ToLower str in
  match storageExp str with
  | None => Some (ParseUint str)
  | Some (number, unit) =>
    match ParseFloat number with
    | None => Some (Err ErrParseFloat)
    | Some fsize =>
      let fsize :=
        match scale unit with
        | Some k => fmul fsize (Finite k 0)
        | None => fsize
        end in
      match uint64_of_Round fsize with
      | Some size => Some (Ok size)
      | None => None
      end
    end
  end.

(** [ParseVolumeSize(str)]. *)
Definition ParseVolumeSize (str : string) : option (result N) :=
  parseVolume binary_scale str.

(** [ParseVolumeHumanSize(str)]. *)
Definition ParseVolumeHumanSize (str : string) : option (result N) :=
  parseVolume decimal_scale str.


(** ** HumanReadableSizeWithUnitAndPrecision *)

(** [n] in decimal, padded with zeros on the left to [width] digits. *)
Definition pad_zeros (width : nat) (s : string) : string :=
  (string_of_list_ascii (repeat "0"%char (width - String.length s)) ++ s)%string.

(** [strconv.FormatFloat(x, 'f', precision, 64)] for [0 <= precision]: the
    exact value of [x] rounded to [precision] decimals, ties to even. *)
Definition FormatFloat (x : float64) (precision : Z) : string :=
  match x with
  | Inf => "+Inf"
  | Finite m e =>
    let p := Z.max precision 0 in
    let r := if (0 <=? e)%Z then (m * 2 ^ e * 10 ^ p)%Z
             else round_div (m * 10 ^ p) (2 ^ (- e)) in
    let whole := fmt_d (Z.to_N (r / 10 ^ p)) in
    if (0 <? p)%Z
    then (whole ++ "." ++ pad_zeros (Z.to_nat p) (fmt_d (Z.to_N (r mod 10 ^ p))))%string
    else whole
  end.

(** [strings.TrimRight(s, cutset)] for a cutset of one character. *)
Fixpoint TrimRight (s : string) (c : ascii) : string :=
  match s with
  | EmptyString => EmptyString
  | String a s' =>
    match TrimRight s' c with
    | EmptyString => if Ascii.eqb a c then EmptyString else String a EmptyString
    | t => String a t
    end
  end.

(** A row of the table of units: unit, mask, default precision. *)
Record sizeUnit := mkSizeUnit {
  unit_name : string;
  mask : float64;
  unit_precision : Z
}.

(** The table [sizes]; the masks are powers of 1000, which [float64] holds
    exactly. *)
Definition sizes : list sizeUnit :=
  [mkSizeUnit "P" (Finite (1000 * 1000 * 1000 * 1000 * 1000) 0) 5;
   mkSizeUnit "T" (Finite (1000 * 1000 * 1000 * 1000) 0) 4;
   mkSizeUnit "G" (Finite (1000 * 1000 * 1000) 0) 3;
   mkSizeUnit "M" (Finite (1000 * 1000) 0) 2;
   mkSizeUnit "K" (Finite 1000 0) 1;
   mkSizeUnit "B" (Finite 1 0) 0].

(** What the loop returns once a row is chosen: the scaled value formatted
    with the requested precision (the row's when the request is negative),
    trailing zeros and then a trailing dot cut off, and the unit unless it is
    B. *)
Definition render (csize : float64) (precision : Z) (curr : sizeUnit) : string :=
  let unit := unit_name curr in
  let precision := if (precision <? 0)%Z then unit_precision curr else precision in
  let formatted := FormatFloat csize precision in
  let formatted := TrimRight (TrimRight formatted "0") "." in
  if negb (unit =? "")%string && negb (unit =? "B")%string
  then (formatted ++ unit)%string
  else formatted.

(** The [for _, curr := range sizes] loop. *)
Fixpoint HumanReadableSize_loop (value : float64) (unit : string) (precision : Z)
  (table : list sizeUnit) : result string :=
  match table with
  | [] => Err ErrFormatSize
  | curr :: rest =>
    let csize := fdiv value (mask curr) in
    if (unit =? "")%string then
      if fltb csize (Finite 1 0)
      then HumanReadableSize_loop value unit precision rest
      else Ok (render csize precision curr)
    else if negb (unit =? unit_name curr)%string
    then HumanReadableSize_loop value unit precision rest
    else Ok (render csize precision curr)
  end.

(** [HumanReadableSizeWithUnitAndPrecision(size, unit, precision)]. *)
Definition HumanReadableSizeWithUnitAndPrecision (size : N) (unit : string)
  (precision : Z) : result string :=
  let unit := ToUpper unit in
  if size =? 0 then Ok "0"
  else HumanReadableSize_loop (float64_of_uint size) unit precision sizes.


(** ** Decoding the device listing *)

(** A JSON document.  A number keeps its literal, as [json.Number] does. *)
#[warnings="-register-all"]
Inductive json :=
| JNull
| JBool (b : bool)
| JNumber (literal : string)
| JString (s : string)
| JArray (l : list json)
| JObject (members : list (string * json)).

(** What a [json.Decoder] still has to read: values not yet opened, keys of
    an open object, closing delimiters. *)
Inductive elem :=
| EVal (v : json)
| EKey (k : string)
| EDelim (c : ascii).

(** The tokens of [dec.Token()]. *)
Inductive token :=
| TDelim (c : ascii)
| TBool (b : bool)
| TNumber (literal : string)
| TString (s : string)
| TNull.

(** [dec.Token()]: the next token and the rest of the input; [None] is
    [io.EOF].  Reading the opening delimiter of an array or object puts its
    elements, or keys and values, in front of the input. *)
Definition Token (dec : list elem) : option (token * list elem) :=
  match dec with
  | [] => None
  | EDelim c :: rest => Some (TDelim c, rest)
  | EKey k :: rest => Some (TString k, rest)
  | EVal JNull :: rest => Some (TNull, rest)
  | EVal (JBool b) :: rest => Some (TBool b, rest)
  | EVal (JNumber n) :: rest => Some (TNumber n, rest)
  | EVal (JString s) :: rest => Some (TString s, rest)
  | EVal (JArray l) :: rest =>
    Some (TDelim "[", map EVal l ++ EDelim "]" :: rest)
  | EVal (JObject members) :: rest =>
    Some (TDelim "{",
          flat_map (fun kv => [EKey (fst kv); EVal (snd kv)]) members
          ++ EDelim "}" :: rest)
  end.

(** [getNextStrToken(dec, name)]: a nil token (JSON null, or the end of the
    input) reads as the empty string. *)
Definition getNextStrToken (dec : list elem) (name : string)
  : result string * list elem :=
  match Token dec with
  | None => (Ok "", dec)
  | Some (TNull, dec') => (Ok "", dec')
  | Some (TString str, dec') => (Ok str, dec')
  | Some (_, dec') => (Err (ErrTokenString name), dec')
  end.

(** [json.Number.Int64()]: [strconv.ParseInt(literal, 10, 64)]. *)
Definition Int64 (literal : string) : option Z :=
  let (negative, ds) :=
    match literal with
    | String "-"%char r => (true, r)
    | String "+"%char r => (false, r)
    | _ => (false, literal)
    end in
  if all_digits ds && negb (ds =? "")%string then
    let z := if negative then (- digits_value ds)%Z else digits_value ds in
    if ((- 2 ^ 63 <=? z) && (z <? 2 ^ 63))%Z then Some z else None
  else None.

(** [getNextByteToken(dec, name)]: a number is read as an [int64] and
    converted to [uint64]; a string goes through [ParseVolumeSize]; any other
    token leaves the size 0. *)
Definition getNextByteToken (dec : list elem) (name : string)
  : result N * list elem :=
  match Token dec with
  | None => (Ok 0, dec)
  | Some (TNull, dec') => (Ok 0, dec')
  | Some (TNumber literal, dec') =>
    match Int64 literal with
    | None => (Err ErrInt64, dec')
    | Some n => (Ok (Z.to_N (n mod 2 ^ 64)), dec')
    end
  | Some (TString str, dec') =>
    match ParseVolumeSize str with
    | None => (Err ErrOutsideModel, dec')
    | Some r => (r, dec')
    end
  | Some (_, dec') => (Ok 0, dec')
  end.

(** [getNextBoolToken(dec, name)]. *)
Definition getNextBoolToken (dec : list elem) (name : string)
  : result bool * list elem :=
  match Token dec with
  | None => (Ok false, dec)
  | Some (TNull, dec') => (Ok false, dec')
  | Some (TBool b, dec') => (Ok b, dec')
  | Some (TString str, dec') =>
    if (str =? "0")%string then (Ok false, dec')
    else if (str =? "1")%string then (Ok true, dec')
    else if (str =? "")%string then (Ok false, dec')
    else (Err (ErrUnknownRo str), dec')
  | Some (_, dec') => (Err (ErrTokenBool name), dec')
  end.

(** [parseBlockDeviceType(bdt)]: the key of [blockDeviceTypeMap] whose value
    is [bdt] (the values are distinct). *)
Definition parseBlockDeviceType (bdt : string) : result BlockDeviceType :=
  if (bdt =? "disk")%string then Ok BlockDeviceTypeDisk
  else if (bdt =? "part")%string then Ok BlockDeviceTypePart
  else if (bdt =? "crypt")%string then Ok BlockDeviceTypeCrypt
  else if (bdt =? "loop")%string then Ok BlockDeviceTypeLoop
  else if (bdt =? "rom")%string then Ok BlockDeviceTypeRom
  else if (bdt =? "LVM2_member")%string then Ok BlockDeviceTypeLVM2Group
  else if (bdt =? "lvm")%string then Ok BlockDeviceTypeLVM2Volume
  else if (bdt =? "")%string then Ok BlockDeviceTypeUnknown
  else Err (ErrBlockDeviceType bdt).

(** [parseBlockDeviceState(bds)]. *)
Definition parseBlockDeviceState (bds : string) : result BlockDeviceState :=
  if (bds =? "running")%string then Ok BlockDeviceStateRunning
  else if (bds =? "live")%string then Ok BlockDeviceStateLive
  else if (bds =? "Connected")%string then Ok BlockDeviceStateConnected
  else if (bds =? "")%string then Ok BlockDeviceStateUnknown
  else Err (ErrBlockDeviceState bds).

(** A case of the switch that reads a string and stores it in a field. *)
Definition string_field (h : Store) (bd : loc) (dec : list elem) (name : string)
  (set : string -> BlockDevice -> BlockDevice)
  : (Store * list elem) + error :=
  match getNextStrToken dec name with
  | (Err e, _) => inr e
  | (Ok v, dec') => inl (modify h bd (set v), dec')
  end.

(** [encoding/json] filling a [[]*BlockDevice] from the elements of an
    array, [rec] being [UnmarshalJSON] on a new node: the pointers, in order.
    A null element would leave a nil pointer in the slice, on which every
    loop over the children panics: the embedding leaves that case out. *)
Fixpoint decode_devices (rec : Store -> loc -> json -> option (Store * option error))
  (h : Store) (l : list json) (acc : list loc)
  : option (Store * result (list loc)) :=
  match l with
  | [] => Some (h, Ok acc)
  | JNull :: _ => Some (h, Err ErrOutsideModel)
  | v :: rest =>
    let (h1, p) := new_dev h zeroBlockDevice in
    match rec h1 p v with
    | None => None
    | Some (h2, Some e) => Some (h2, Err e)
    | Some (h2, None) => decode_devices rec h2 rest (acc ++ [p])
    end
  end.

(** The token loop of [UnmarshalJSON]: every string token that names a field
    is taken for a key and the token after it for its value; everything else
    is skipped.  The outer [None] means that the fuel ran out; the inner
    option is the error returned, [None] for nil. *)
Fixpoint UnmarshalJSON_loop (fuel : nat) (h : Store) (bd : loc) (dec : list elem)
  : option (Store * option error) :=
  match fuel with
  | O => None
  | S fuel' =>
    let continue (r : (Store * list elem) + error) :=
      match r with
      | inl (h', dec') => UnmarshalJSON_loop fuel' h' bd dec'
      | inr e => Some (h, Some e)
      end in
    match Token dec with
    | None => Some (h, None)
    | Some (TString str, dec1) =>
      if (str =? "name")%string then continue (string_field h bd dec1 "name" set_Name)
      else if (str =? "model")%string then continue (string_field h bd dec1 "model" set_Model)
      else if (str =? "maj:min")%string
      then continue (string_field h bd dec1 "maj:min" set_MajorMinor)
      else if (str =? "size")%string then
        match getNextByteToken dec1 "size" with
        | (Err e, _) => Some (h, Some e)
        | (Ok size, dec2) => UnmarshalJSON_loop fuel' (modify h bd (set_Size size)) bd dec2
        end
      else if (str =? "pttype")%string
      then continue (string_field h bd dec1 "pttype" set_PtType)
      else if (str =? "fstype")%string
      then continue (string_field h bd dec1 "fstype" set_FsType)
      else if (str =? "uuid")%string then continue (string_field h bd dec1 "uuid" set_UUID)
      else if (str =? "serial")%string
      then continue (string_field h bd dec1 "serial" set_Serial)
      else if (str =? "type")%string then
        match getNextStrToken dec1 "type" with
        | (Err e, _) => Some (h, Some e)
        | (Ok tp, dec2) =>
          match parseBlockDeviceType tp with
          | Err e => Some (modify h bd (set_Type_ BlockDeviceTypeUnknown), Some e)
          | Ok t => UnmarshalJSON_loop fuel' (modify h bd (set_Type_ t)) bd dec2
          end
        end
      else if (str =? "state")%string then
        match getNextStrToken dec1 "state" with
        | (Err e, _) => Some (h, Some e)
        | (Ok state, dec2) =>
          match parseBlockDeviceState state with
          | Err e => Some (modify h bd (set_State BlockDeviceStateUnknown), Some e)
          | Ok s => UnmarshalJSON_loop fuel' (modify h bd (set_State s)) bd dec2
          end
        end
      else if (str =? "mountpoint")%string
      then continue (string_field h bd dec1 "mountpoint" set_MountPoint)
      else if (str =? "label")%string
      then continue (string_field h bd dec1 "label" set_Label)
      else if (str =? "ro")%string then
        match getNextBoolToken dec1 "ro" with
        | (Err e, _) => Some (modify h bd (set_ReadOnly false), Some e)
        | (Ok b, dec2) => UnmarshalJSON_loop fuel' (modify h bd (set_ReadOnly b)) bd dec2
        end
      else if (str =? "rm")%string then
        match getNextBoolToken dec1 "rm" with
        | (Err e, _) => Some (modify h bd (set_RemovableDevice false), Some e)
        | (Ok b, dec2) =>
          UnmarshalJSON_loop fuel' (modify h bd (set_RemovableDevice b)) bd dec2
        end
      else if (str =? "children")%string then
        let h1 := modify h bd (set_Children (Some [])) in
        match dec1 with
        | EVal JNull :: dec2 =>
          UnmarshalJSON_loop fuel' (modify h1 bd (set_Children None)) bd dec2
        | EVal (JArray l) :: dec2 =>
          match decode_devices
                  (fun h' p v => UnmarshalJSON_loop fuel' h' p [EVal v]) h1 l [] with
          | None => None
          | Some (h2, Err ErrOutsideModel) => Some (h2, Some ErrOutsideModel)
          | Some (h2, Err _) => Some (h2, Some ErrInvalidChildren)
          | Some (h2, Ok ps) =>
            UnmarshalJSON_loop fuel' (modify h2 bd (set_Children (Some ps))) bd dec2
          end
        | _ => Some (h1, Some ErrInvalidChildren)
        end
      else UnmarshalJSON_loop fuel' h bd dec1
    | Some (_, dec1) => UnmarshalJSON_loop fuel' h bd dec1
    end
  end.

(** [bd.UnmarshalJSON(b)], [b] being the text of the value [v]. *)
Definition UnmarshalJSON (fuel : nat) (h : Store) (bd : loc) (v : json)
  : option (Store * option error) :=
  UnmarshalJSON_loop fuel h bd [EVal v].

(** The inner loop of [parseBlockDevicesDescriptor], over the children of a
    decoded device: it sets the child's [Parent] and stops at the first child
    that is mounted or labelled as installer media. *)
Fixpoint mark_children (h : Store) (bd : loc) (chs : list loc) : Store :=
  match chs with
  | [] => h
  | ch :: rest =>
    let h1 := modify h ch (set_Parent (Some bd)) in
    if negb (MountPoint (devs h1 ch) =? "")%string
    then modify h1 bd (set_available false)
    else if Contains (Label (devs h1 ch)) "CLR_ISO"
    then modify h1 bd (set_available false)
    else mark_children h1 bd rest
  end.

(** The outer loop of [parseBlockDevicesDescriptor]. *)
Fixpoint mark_devices (h : Store) (bds : list loc) : Store :=
  match bds with
  | [] => h
  | bd :: rest =>
    let h1 := modify h bd (set_available true) in
    let h2 := mark_children h1 bd (elems (Children (devs h1 bd))) in
    let h3 := if Contains (FsType (devs h2 bd)) "squashfs"
              then modify h2 bd (set_available false) else h2 in
    mark_devices h3 rest
  end.

(** [parseBlockDevicesDescriptor(data)], [data] being the text of the
    document [doc].  [json.Unmarshal] fills the field tagged "blockdevices"
    from the member of that name (compared without case) and skips the other
    members; a document with several such members is left out of the
    embedding. *)
Definition parseBlockDevicesDescriptor (fuel : nat) (h : Store) (doc : json)
  : option (Store * result (list loc)) :=
  let decoded :=
    match doc with
    | JNull => Some (h, Ok [])
    | JObject members =>
      match filter (fun kv => (ToLower (fst kv) =? "blockdevices")%string) members with
      | [] => Some (h, Ok [])
      | [(_, JNull)] => Some (h, Ok [])
      | [(_, JArray l)] =>
        decode_devices (fun h' p v => UnmarshalJSON fuel h' p v) h l []
      | [_] => Some (h, Err ErrUnmarshal)
      | _ => Some (h, Err ErrOutsideModel)
      end
    | _ => Some (h, Err ErrUnmarshal)
    end in
  match decoded with
  | None => None
  | Some (h1, Err e) => Some (h1, Err e)
  | Some (h1, Ok bds) => Some (mark_devices h1 bds, Ok bds)
  end.


(** ** Sample stores *)

(** An empty store: every address holds the zero value. *)
Definition emptyStore : Store :=
  mkStore (fun _ => zeroBlockDevice) (fun _ => Parted.mkPart 0 0 0 0 "" "" "")
    (fun _ => []) 0.

(** A store with the given devices at addresses 0, 1, 2, ... *)
Definition storeOf (l : list BlockDevice) : Store :=
  fold_left (fun h b => fst (new_dev h b)) l emptyStore.

(** A device with a name, type, size, filesystem, mount point, children and
    parent; the other fields are zero. *)
Definition device (name : string) (ty : BlockDeviceType) (size : N)
  (fsType mountPoint : string) (children : slice loc) (parent : option loc)
  : BlockDevice :=
  mkBlockDevice name "" "" "" "" fsType "" "" mountPoint "" size ty 0%Z
    false false children parent false false false "" false 0 None None.

(** ** Vocabulary of the properties *)

Definition children_of (h : Store) (bd : loc) : list BlockDevice :=
  map (devs h) (elems (Children (devs h bd))).
Definition is_efi_boot (c : BlockDevice) : Prop :=
  FsType c = "vfat" /\ MountPoint c = "/boot".

Definition isBootb (c : BlockDevice) : bool :=
  ((FsType c =? "vfat") && (MountPoint c =? "/boot"))%string.
Definition cryptb (c : BlockDevice) : bool :=
  BlockDeviceType_eqb (Type_ c) BlockDeviceTypeCrypt.
Definition nondisk0b (d : BlockDevice) : bool :=
  negb (BlockDeviceType_eqb (Type_ d) BlockDeviceTypeDisk) && (Size d =? 0).

Definition storeValidate : Store :=
  storeOf [device "loop0" BlockDeviceTypeLoop 0 "" "" (Some [1%nat]) None;
           device "loop0p1" BlockDeviceTypePart 0 "ext4" "/" None (Some 0%nat)].

Definition storeValidateDisk : Store :=
  storeOf [device "sda" BlockDeviceTypeDisk 0 "" "" (Some [1%nat]) None;
           device "sda1" BlockDeviceTypePart 0 "ext4" "/" None (Some 0%nat)].

(** A free row: number 0 and filesystem "free". *)
Definition is_free (r : PartedPartition) : Prop :=
  Parted.Number r = 0 /\ Parted.FileSystem r = "free".

(** A free row that can hold [size] bytes. *)
Definition fits (size : N) (r : PartedPartition) : Prop :=
  is_free r /\ size <= Parted.Size r.

(** A disk whose table is free / 1 GB, taken (number 1), free / 5 GB,
    free / 8 GB. *)
Definition storeTable : Store :=
  let h0 := storeOf [device "sda" BlockDeviceTypeDisk 20000000000 "" "" None None] in
  let (h1, r1) := new_row h0 (Parted.mkPart 0 0 1000000000 1000000000 "free" "" "") in
  let (h2, r2) := new_row h1 (Parted.mkPart 1 1000000000 7000000000 6000000000 "ext4" "" "") in
  let (h3, r3) := new_row h2 (Parted.mkPart 0 7000000000 12000000000 5000000000 "free" "" "") in
  let (h4, r4) := new_row h3 (Parted.mkPart 0 12000000000 20000000000 8000000000 "free" "" "") in
  let (h5, t) := new_table h4 [r1; r2; r3; r4] in
  modify h5 0 (set_PartTable (Some t)).

(** The identity match of [Equals]: same name, model and major:minor. *)
Definition same_device (h : Store) (d u : loc) : Prop :=
  Name (devs h d) = Name (devs h u)
  /\ Model (devs h d) = Model (devs h u)
  /\ MajorMinor (devs h d) = MajorMinor (devs h u).

(** A device with a name, model, major:minor and mount point. *)
Definition namedDevice (name model majMin mountPoint : string) : BlockDevice :=
  mkBlockDevice name "" model majMin "" "" "" "" mountPoint "" 0
    BlockDeviceTypeDisk 0%Z false false None None false false false "" false 0
    None None.

(** Discovered [sda] and [sdb] at 0 and 1; user-defined [sda] with mount
    point "/" at 2 and a user-defined [sdz] at 3. *)
Definition storeMerge : Store :=
  storeOf [namedDevice "sda" "X" "8:0" ""; namedDevice "sdb" "Y" "8:16" "";
           namedDevice "sda" "X" "8:0" "/"; namedDevice "sdz" "Z" "8:99" "/home"].

(** [h] holds, at [bd], a tree of depth at most [n] of allocated nodes:
    following [Children] from [bd] ends within [n] steps. *)
Inductive tree (h : Store) : nat -> loc -> Prop :=
| tree_node (n : nat) (bd : loc) :
    (bd < next h)%nat ->
    (forall c, In c (elems (Children (devs h bd))) -> tree h n c) ->
    tree h (S n) bd.

(** [len(ch.Children) > 0]. *)
Definition has_children (h : Store) (ch : loc) : bool :=
  (0 <? List.length (elems (Children (devs h ch))))%nat.

(** What a child adds to the sum of [DiskSize]: its own [DiskSize] when it
    has children, its [Size] otherwise. *)
Definition contribution (fuel : nat) (h : Store) (ch : loc) : option (result N) :=
  if has_children h ch then DiskSize fuel h ch else Some (Ok (Size (devs h ch))).

(** The [uint64] sum of a list, from the left as the loop adds it. *)
Definition sum64 (l : list N) : N := fold_left add64 l 0.

(** A volume group of declared size 0 holding one volume of size 10 that
    itself holds a 20-byte mapping. *)
Definition storeDiskSize : Store :=
  storeOf [device "vg" BlockDeviceTypeLVM2Group 0 "" "" (Some [1%nat]) None;
           device "lv" BlockDeviceTypeLVM2Volume 10 "" "" (Some [2%nat]) (Some 0%nat);
           device "map" BlockDeviceTypeCrypt 20 "ext4" "/" None (Some 1%nat)].

(** A 100-byte disk with partitions of 30 and 50 bytes. *)
Definition storeDiskSizeOk : Store :=
  storeOf [device "sda" BlockDeviceTypeDisk 100 "" "" (Some [1; 2]%nat) None;
           device "sda1" BlockDeviceTypePart 30 "vfat" "/boot" None (Some 0%nat);
           device "sda2" BlockDeviceTypePart 50 "ext4" "/" None (Some 0%nat)].

(** ** Vocabulary of the planner's properties *)

(** The name [AddChild] gives a child that has none. *)
Definition childName (parent child : BlockDevice) : string :=
  if (Name child =? "")%string then
    if partition child <? 1
    then (getBasePartitionName parent ++ "?")%string
    else (getBasePartitionName parent ++ fmt_d (partition child))%string
  else Name child.

(** One allocation of the planner: find a free region, build the partition,
    attach it.  [NewStandardPartitions] does this three times. *)
Definition allocate (carve : bool) (h : Store) (disk : loc) (size : N)
  (lit : BlockDevice) : Store :=
  let (h1, freePart) := findFree h disk size in
  let (h2, child) := new_dev h1 lit in
  AddFromFreePartition carve h2 disk freePart child.

(** The disk has the children [kids] and a table of one free row of [size]
    bytes at [start]. *)
Definition planner_state (h : Store) (disk : loc) (kids : list loc)
  (start size : N) : Prop :=
  (disk < next h)%nat
  /\ elems (Children (devs h disk)) = kids
  /\ exists r, table_rows h disk = [r] /\ (r < next h)%nat
               /\ is_free (rows h r)
               /\ Parted.Start (rows h r) = start
               /\ Parted.Size (rows h r) = size.

(** What the planner leaves in a new partition. *)
Definition planned (c : BlockDevice) (fsType mountPoint : string) (size : N)
  (disk : loc) : Prop :=
  FsType c = fsType /\ MountPoint c = mountPoint /\ Size c = size
  /\ Type_ c = BlockDeviceTypePart
  /\ MakePartition c = true /\ FormatPartition c = true
  /\ Parent c = Some disk.

(** A 10 GB disk that already has one partition. *)
Definition storePlanner : Store :=
  storeOf [device "sda" BlockDeviceTypeDisk 10000000000 "" "" (Some [1%nat]) None;
           device "sda1" BlockDeviceTypePart 5000 "ext4" "/" None (Some 0%nat)].

(** ** Vocabulary of the properties of Clone and RemoveChild *)

(** [new] holds at [clone], within the addresses [lo] to [hi - 1], a copy of
    the tree that [old] holds at [bd]: the node is [Clone]'s literal of the
    original with [parent] as parent and the copies of the children as
    children, and so on below, every child pointing back to its copied
    parent.  The copies of the children take consecutive address ranges, in
    the children's order. *)
Inductive cloned (old new : loc -> BlockDevice) :
  loc -> loc -> option loc -> loc -> loc -> Prop :=
| cloned_node (lo hi : loc) (parent : option loc) (bd clone : loc) (cs' : list loc) :
    (lo <= clone < hi)%nat ->
    new clone = set_Parent parent (set_Children (Some cs') (Clone_literal (old bd))) ->
    cloned_list old new (S clone) hi (Some clone) (elems (Children (old bd))) cs' ->
    cloned old new lo hi parent bd clone
with cloned_list (old new : loc -> BlockDevice) :
  loc -> loc -> option loc -> list loc -> list loc -> Prop :=
| cloned_nil (lo hi : loc) (parent : option loc) :
    (lo <= hi)%nat ->
    cloned_list old new lo hi parent [] []
| cloned_cons (lo mid hi : loc) (parent : option loc) (c c' : loc) (cs cs' : list loc) :
    cloned old new lo mid parent c c' ->
    cloned_list old new mid hi parent cs cs' ->
    cloned_list old new lo hi parent (c :: cs) (c' :: cs').

Scheme cloned_ind2 := Induction for cloned Sort Prop
  with cloned_list_ind2 := Induction for cloned_list Sort Prop.

(** The store [hc] has every node of [h] as [h] has it, and maybe more. *)
Definition extends (h hc : Store) : Prop :=
  (next h <= next hc)%nat /\ forall q, (q < next h)%nat -> devs hc q = devs h q.

(** The name [RemoveChild] leaves to a child it keeps. *)
Definition rebuiltName (parent c : BlockDevice) : string :=
  (getBasePartitionName parent
   ++ (if (partition c <? 1)%N then "?" else fmt_d (partition c)))%string.

(** [c'] is what [RemoveChild] makes of the child [c] it keeps: a new node
    with the fields of [Clone]'s literal of [c], re-attached to [bd] and
    renamed. *)
Definition kept_as (h h' : Store) (bd c c' : loc) : Prop :=
  (next h <= c')%nat
  /\ exists gs,
       devs h' c' =
       set_Name (rebuiltName (devs h bd) (devs h c))
         (set_Parent (Some bd) (set_Children (Some gs) (Clone_literal (devs h c)))).

(** A disk with a discovered partition [sda1] and a partition added with
    [AddChild], which named it "sda?". *)
Definition storeRemove : Store :=
  storeOf [device "sda" BlockDeviceTypeDisk 1000 "" "" (Some [1; 2]%nat) None;
           device "sda1" BlockDeviceTypePart 100 "vfat" "/boot" None (Some 0%nat);
           device "sda?" BlockDeviceTypePart 200 "ext4" "/" None (Some 0%nat)].

(** A GPT disk with one partition that carries mkfs options. *)
Definition storeClone : Store :=
  storeOf [mkBlockDevice "sda" "" "" "8:0" "gpt" "" "" "" "" "" 1000
             BlockDeviceTypeDisk 0%Z false false (Some [1%nat]) None false false
             false "" true 0 None None;
           mkBlockDevice "sda1" "" "" "8:1" "" "ext4" "" "" "/" "" 1000
             BlockDeviceTypePart 0%Z false false None (Some 0%nat) true true
             true "-O ^has_journal" true 1 None None].

(** ** Vocabulary of the properties of the size functions *)

(** The power a unit suffix stands for, in either case: none or b is 0, k is
    1, and so on up to p, 5. *)
Definition unit_power (u : string) : option Z :=
  let l := ToLower u in
  if (l =? "")%string then Some 0%Z
  else if (l =? "b")%string then Some 0%Z
  else if (l =? "k")%string then Some 1%Z
  else if (l =? "m")%string then Some 2%Z
  else if (l =? "g")%string then Some 3%Z
  else if (l =? "t")%string then Some 4%Z
  else if (l =? "p")%string then Some 5%Z
  else None.

(** The float [f] is the integer [z], held as [z * 2^c * 2^(-c)]. *)
Definition is_int (f : float64) (z : Z) : Prop :=
  exists c, (0 <= c)%Z /\ f = Finite (z * 2 ^ c) (- c).

(** A listing of two disks: [sda] with a mounted first partition and a
    second one, and [sdb] with a partition that holds an LVM volume. *)
Definition docListing : json :=
  JObject
    [("blockdevices",
      JArray
        [JObject
           [("name", JString "sda"); ("size", JNumber "10485760");
            ("type", JString "disk");
            ("children",
             JArray
               [JObject [("name", JString "sda1"); ("type", JString "part");
                         ("mountpoint", JString "/")];
                JObject [("name", JString "sda2"); ("type", JString "part");
                         ("mountpoint", JNull)]])];
         JObject
           [("name", JString "sdb"); ("size", JString "10M");
            ("type", JString "disk");
            ("children",
             JArray
               [JObject [("name", JString "sdb1"); ("type", JString "part");
                         ("children",
                          JArray [JObject [("name", JString "vg-root");
                                           ("type", JString "lvm")]])]])]])].

(** The mask of a row of [sizes] as an integer. *)
Definition mask_value (curr : sizeUnit) : Z :=
  match mask curr with
  | Finite m e => (m * 2 ^ e)%Z
  | Inf => 0%Z
  end.

(** ** The float64 model against the Standard Library's IEEE 754 *)

(** A value of the model as a binary64 number of [SpecFloat]. *)
Definition to_spec_float (f : float64) : spec_float :=
  match f with
  | Finite m e => binary_normalize 53 1024 m e false
  | Inf => S754_infinity false
  end.

Definition same_float (f : float64) (x : spec_float) : bool :=
  SFeqb (to_spec_float f) x.


(* ================================================================== *)
(** * Part II: properties *)
(* ================================================================== *)

Lemma BlockDeviceType_eqb_spec a b : reflect (a = b) (BlockDeviceType_eqb a b).
Proof. destruct a, b; constructor; congruence. Qed.

Lemma Validate_loop_spec h d chs f :
  let cs := map (devs h) chs in
  match Validate_loop h d chs f with
  | inl e =>
      (e = ErrBootEncrypted /\ existsb (fun c => isBootb c && cryptb c) cs = true)
      \/ (e = ErrBothSizesZero /\ nondisk0b d = true
          /\ existsb (fun c => Size c =? 0) cs = true)
  | inr f' =>
      existsb (fun c => isBootb c && cryptb c) cs = false
      /\ (nondisk0b d = true -> existsb (fun c => Size c =? 0) cs = false)
      /\ bootPartition f' = existsb isBootb cs || bootPartition f
      /\ rootPartition f' = existsb (fun c => MountPoint c =? "/")%string cs || rootPartition f
      /\ encrypted f' = existsb (fun c => cryptb c && FsTypeNotSwap c) cs || encrypted f
  end.
Proof.
  revert f. induction chs as [|c rest IH]; intros f; simpl.
  - repeat split; auto.
  - fold (isBootb (devs h c)). fold (cryptb (devs h c)).
    destruct (isBootb (devs h c) && cryptb (devs h c)) eqn:Ebc; simpl.
    + left. auto.
    + fold (nondisk0b d).
      destruct (nondisk0b d && (Size (devs h c) =? 0)) eqn:Ez.
      * right. apply andb_true_iff in Ez. destruct Ez as [-> ->]. auto.
      * specialize (IH (mkVflags (isBootb (devs h c) || bootPartition f)
                          ((MountPoint (devs h c) =? "/")%string || rootPartition f)
                          (cryptb (devs h c) && FsTypeNotSwap (devs h c) || encrypted f))).
        simpl in IH.
        destruct (Validate_loop h d rest _) as [e|f'].
        -- destruct IH as [[-> H]|[-> [H1 H2]]].
           ++ left. split; auto.
           ++ right. repeat split; auto. rewrite H2. apply orb_true_r.
        -- destruct IH as (H1 & H2 & H3 & H4 & H5).
           repeat split; auto.
           ++ intros Hd. rewrite Hd in Ez. simpl in Ez. rewrite Ez. simpl. auto.
           ++ rewrite H3. rewrite orb_assoc. f_equal. apply orb_comm.
           ++ rewrite H4. rewrite orb_assoc. f_equal. apply orb_comm.
           ++ rewrite H5. rewrite orb_assoc. f_equal. apply orb_comm.
Qed.

Lemma existsb_iff {A} (p : A -> bool) (P : A -> Prop) (l : list A) :
  (forall x, p x = true <-> P x) -> (existsb p l = true <-> Exists P l).
Proof.
  intros Hp. rewrite existsb_exists, Exists_exists.
  split; intros [x [Hin Hx]]; exists x; split; auto; apply Hp; auto.
Qed.

Lemma existsb_false_iff {A} (p : A -> bool) (P : A -> Prop) (l : list A) :
  (forall x, p x = true <-> P x) -> (existsb p l = false <-> ~ Exists P l).
Proof.
  intros Hp. rewrite <- (existsb_iff p P l Hp).
  destruct (existsb p l); split; intros; try congruence; auto.
Qed.

Lemma isBootb_iff c : isBootb c = true <-> is_efi_boot c.
Proof.
  unfold isBootb, is_efi_boot.
  rewrite andb_true_iff, !String.eqb_eq. tauto.
Qed.

Lemma cryptb_iff c : cryptb c = true <-> Type_ c = BlockDeviceTypeCrypt.
Proof. unfold cryptb. destruct (BlockDeviceType_eqb_spec (Type_ c) BlockDeviceTypeCrypt); split; congruence. Qed.

Lemma bootcryptb_iff c :
  isBootb c && cryptb c = true <-> is_efi_boot c /\ Type_ c = BlockDeviceTypeCrypt.
Proof. rewrite andb_true_iff, isBootb_iff, cryptb_iff. tauto. Qed.

Lemma rootb_iff c : (MountPoint c =? "/")%string = true <-> MountPoint c = "/".
Proof. apply String.eqb_eq. Qed.

Lemma encb_iff c :
  cryptb c && FsTypeNotSwap c = true
  <-> Type_ c = BlockDeviceTypeCrypt /\ FsType c <> "swap".
Proof.
  unfold FsTypeNotSwap. rewrite andb_true_iff, cryptb_iff, negb_true_iff.
  rewrite String.eqb_neq. tauto.
Qed.

Lemma size0b_iff c : (Size c =? 0) = true <-> Size c = 0.
Proof. apply N.eqb_eq. Qed.

Lemma nondisk0b_iff d :
  nondisk0b d = true <-> Type_ d <> BlockDeviceTypeDisk /\ Size d = 0.
Proof.
  unfold nondisk0b. rewrite andb_true_iff, negb_true_iff, N.eqb_eq.
  destruct (BlockDeviceType_eqb_spec (Type_ d) BlockDeviceTypeDisk); split;
    intros [? ?]; split; congruence.
Qed.

(** What [Validate] returns, in terms of the five conditions as booleans. *)
Lemma Validate_cases h bd legacyBios cryptPass :
  let d := devs h bd in
  let cs := children_of h bd in
  let bc := existsb (fun c => isBootb c && cryptb c) cs in
  let zz := nondisk0b d && existsb (fun c => Size c =? 0) cs in
  (bc || zz = true ->
     (Validate h bd legacyBios cryptPass = Some ErrBootEncrypted /\ bc = true)
     \/ (Validate h bd legacyBios cryptPass = Some ErrBothSizesZero /\ zz = true))
  /\ (bc || zz = false ->
      Validate h bd legacyBios cryptPass =
        if negb (existsb isBootb cs) && negb legacyBios then Some ErrNoEFI
        else if negb (existsb (fun c => MountPoint c =? "/")%string cs) then Some ErrNoRoot
        else if existsb (fun c => cryptb c && FsTypeNotSwap c) cs && (cryptPass =? "")%string
             then Some ErrMissingPassphrase
        else None).
Proof.
  intros d cs bc zz. subst bc zz cs d. unfold Validate, children_of.
  pose proof (Validate_loop_spec h (devs h bd) (elems (Children (devs h bd)))
                (mkVflags false false false)) as H.
  cbv zeta in H.
  destruct (Validate_loop h (devs h bd) _ _) as [e|f'].
  - destruct H as [[-> H]|[-> [H1 H2]]].
    + split; intros Hb.
      * left. auto.
      * rewrite H in Hb. discriminate.
    + split; intros Hb.
      * right. split; auto. rewrite H1, H2. reflexivity.
      * rewrite H1, H2, orb_true_r in Hb. discriminate.
  - destruct H as (H1 & H2 & H3 & H4 & H5). simpl in H3, H4, H5.
    rewrite orb_false_r in H3, H4, H5.
    split; intros Hb.
    + rewrite H1 in Hb. simpl in Hb.
      apply andb_true_iff in Hb. destruct Hb as [Hd Hz].
      rewrite (H2 Hd) in Hz. discriminate.
    + rewrite H3, H4, H5. reflexivity.
Qed.

(** C1 (as amended): [Validate] fails exactly under the five conditions;
    the error for an encrypted /boot is returned only for such a child and
    then does not depend on the passphrase; and a tree with a "/" child, no
    vfat "/boot" child, no crypt child, that is not a zero-size non-disk
    device with a zero-size child, fails without legacy BIOS and passes with
    it. *)
Theorem Validate_fails_iff (h : Store) (bd : loc) (legacyBios : bool)
  (cryptPass : string) :
  let d := devs h bd in
  let cs := children_of h bd in
  let boot_crypt :=
    Exists (fun c => is_efi_boot c /\ Type_ c = BlockDeviceTypeCrypt) cs in
  let zero_sizes :=
    (Type_ d <> BlockDeviceTypeDisk /\ Size d = 0) /\ Exists (fun c => Size c = 0) cs in
  (Validate h bd legacyBios cryptPass <> None <->
     (~ Exists is_efi_boot cs /\ legacyBios = false)
     \/ boot_crypt
     \/ ~ Exists (fun c => MountPoint c = "/") cs
     \/ (Exists (fun c => Type_ c = BlockDeviceTypeCrypt /\ FsType c <> "swap") cs
         /\ cryptPass = "")
     \/ zero_sizes)
  /\ (Validate h bd legacyBios cryptPass = Some ErrBootEncrypted -> boot_crypt)
  /\ (boot_crypt ->
      forall l p, Validate h bd l p = Validate h bd legacyBios cryptPass)
  /\ (Exists (fun c => MountPoint c = "/") cs ->
      ~ Exists is_efi_boot cs ->
      ~ Exists (fun c => Type_ c = BlockDeviceTypeCrypt) cs ->
      ~ zero_sizes ->
      Validate h bd false cryptPass = Some ErrNoEFI
      /\ Validate h bd true cryptPass = None).
Proof.
  intros d cs boot_crypt zero_sizes.
  assert (Hbc : existsb (fun c => isBootb c && cryptb c) cs = true <-> boot_crypt)
    by (apply existsb_iff, bootcryptb_iff).
  assert (Hzz : nondisk0b d && existsb (fun c => Size c =? 0) cs = true <-> zero_sizes).
  { rewrite andb_true_iff, nondisk0b_iff.
    rewrite (existsb_iff _ (fun c => Size c = 0) cs size0b_iff). reflexivity. }
  assert (Heb : existsb isBootb cs = true <-> Exists is_efi_boot cs)
    by (apply existsb_iff, isBootb_iff).
  assert (Her : existsb (fun c => MountPoint c =? "/")%string cs = true
                <-> Exists (fun c => MountPoint c = "/") cs)
    by (apply existsb_iff, rootb_iff).
  assert (Hee : existsb (fun c => cryptb c && FsTypeNotSwap c) cs = true
                <-> Exists (fun c => Type_ c = BlockDeviceTypeCrypt /\ FsType c <> "swap") cs)
    by (apply existsb_iff, encb_iff).
  assert (Hcr : forall l p,
             existsb (fun c => isBootb c && cryptb c) cs = true ->
             Validate h bd l p = Validate h bd legacyBios cryptPass).
  { intros l p Hb.
    unfold Validate. reflexivity || idtac.
    pose proof (Validate_loop_spec h (devs h bd) (elems (Children (devs h bd)))
                  (mkVflags false false false)) as H.
    cbv zeta in H. fold (children_of h bd) in H. fold cs in H.
    destruct (Validate_loop h (devs h bd) _ _) as [e|f']; [reflexivity|].
    destruct H as [H _]. rewrite H in Hb. discriminate. }
  pose proof (Validate_cases h bd legacyBios cryptPass) as [Hbad Hgood].
  fold cs d in Hbad, Hgood.
  pose proof (String.eqb_eq cryptPass "") as Hp.
  repeat split.
  - (* failure implies one of the five *)
    intros Hfail.
    destruct (existsb (fun c => isBootb c && cryptb c) cs
              || nondisk0b d && existsb (fun c => Size c =? 0) cs) eqn:Eb.
    + apply orb_true_iff in Eb. destruct Eb as [Eb|Eb].
      * right; left. apply Hbc, Eb.
      * do 4 right. apply Hzz, Eb.
    + rewrite (Hgood eq_refl) in Hfail.
      destruct (existsb isBootb cs) eqn:E1; simpl in Hfail.
      * destruct (existsb (fun c => MountPoint c =? "/")%string cs) eqn:E2; simpl in Hfail.
        -- destruct (existsb (fun c => cryptb c && FsTypeNotSwap c) cs) eqn:E3;
             simpl in Hfail; [|congruence].
           destruct (cryptPass =? "")%string eqn:E4; [|congruence].
           do 3 right; left. split; [apply Hee; reflexivity | apply Hp; reflexivity].
        -- do 2 right; left. intros HH. apply Her in HH. congruence.
      * destruct legacyBios; simpl in Hfail.
        -- destruct (existsb (fun c => MountPoint c =? "/")%string cs) eqn:E2; simpl in Hfail.
           ++ destruct (existsb (fun c => cryptb c && FsTypeNotSwap c) cs) eqn:E3;
                simpl in Hfail; [|congruence].
              destruct (cryptPass =? "")%string eqn:E4; [|congruence].
              do 3 right; left. split; [apply Hee; reflexivity | apply Hp; reflexivity].
           ++ do 2 right; left. intros HH. apply Her in HH. congruence.
        -- left. split; auto. intros HH. apply Heb in HH. congruence.
  - (* each of the five implies failure *)
    intros Hc.
    destruct (existsb (fun c => isBootb c && cryptb c) cs
              || nondisk0b d && existsb (fun c => Size c =? 0) cs) eqn:Eb.
    + destruct (Hbad eq_refl) as [[-> _]|[-> _]]; discriminate.
    + rewrite (Hgood eq_refl).
      apply orb_false_iff in Eb. destruct Eb as [Eb1 Eb2].
      destruct Hc as [[H1 ->]|[H2|[H3|[[H4 ->]|H5]]]].
      * destruct (existsb isBootb cs) eqn:E1; simpl; [|discriminate].
        exfalso. apply H1, Heb. reflexivity.
      * apply Hbc in H2. congruence.
      * destruct (existsb (fun c => MountPoint c =? "/")%string cs) eqn:E2.
        -- exfalso. apply H3, Her. reflexivity.
        -- destruct (negb (existsb isBootb cs) && negb legacyBios); discriminate.
      * apply Hee in H4. rewrite H4. simpl.
        destruct (negb (existsb isBootb cs) && negb legacyBios); [discriminate|].
        destruct (negb (existsb (fun c => MountPoint c =? "/")%string cs)); discriminate.
      * apply Hzz in H5. congruence.
  - (* the /boot error comes from an encrypted /boot child only *)
    intros Hv.
    destruct (existsb (fun c => isBootb c && cryptb c) cs) eqn:Eb; [apply Hbc; reflexivity|].
    exfalso.
    destruct (nondisk0b d && existsb (fun c => Size c =? 0) cs) eqn:Ez.
    + destruct (Hbad eq_refl) as [[_ ?]|[Hv' _]]; congruence.
    + rewrite (Hgood eq_refl) in Hv.
      destruct (negb (existsb isBootb cs) && negb legacyBios); [discriminate|].
      destruct (negb (existsb (fun c => MountPoint c =? "/")%string cs)); [discriminate|].
      destruct (existsb (fun c => cryptb c && FsTypeNotSwap c) cs && (cryptPass =? "")%string);
        discriminate.
  - intros Hb l p. apply Hcr. apply Hbc, Hb.
  - (* no EFI partition, legacy BIOS off *)
    destruct (Validate_cases h bd false cryptPass) as [_ Hg]. fold cs d in Hg.
    rewrite Hg.
    + destruct (existsb isBootb cs) eqn:E1; [|reflexivity].
      exfalso. apply H0, Heb. reflexivity.
    + apply orb_false_iff. split.
      * apply not_true_is_false. intros E. apply H0. apply Hbc in E.
        apply Exists_exists in E. destruct E as [x [Hin [Hx _]]].
        apply Exists_exists. exists x. auto.
      * apply not_true_is_false. intros E. apply H2, Hzz, E.
  - (* legacy BIOS on *)
    destruct (Validate_cases h bd true cryptPass) as [_ Hg]. fold cs d in Hg.
    rewrite Hg.
    + rewrite andb_false_r.
      apply Her in H. rewrite H. simpl.
      assert (E : existsb (fun c => cryptb c && FsTypeNotSwap c) cs = false).
      { apply not_true_is_false. intros E. apply H1. apply Hee in E.
        apply Exists_exists in E. destruct E as [x [Hin [Hx _]]].
        apply Exists_exists. exists x. auto. }
      rewrite E. reflexivity.
    + apply orb_false_iff. split.
      * apply not_true_is_false. intros E. apply H0. apply Hbc in E.
        apply Exists_exists in E. destruct E as [x [Hin [Hx _]]].
        apply Exists_exists. exists x. auto.
      * apply not_true_is_false. intros E. apply H2, Hzz, E.
Qed.

Ltac concrete_children :=
  unfold children_of; simpl;
  repeat (rewrite ?Exists_cons, ?Exists_nil);
  unfold is_efi_boot; simpl.

(** C1, the claim as stated fails: a loop device of size 0 whose only child
    is a zero-size "/" partition has a "/" child, no vfat "/boot" child and
    no encryption, and is still refused with legacy BIOS. *)
Lemma Validate_legacy_counterexample :
  ~ (forall (h : Store) (bd : loc) (cryptPass : string),
       Exists (fun c => MountPoint c = "/") (children_of h bd) ->
       ~ Exists is_efi_boot (children_of h bd) ->
       ~ Exists (fun c => Type_ c = BlockDeviceTypeCrypt) (children_of h bd) ->
       Validate h bd false cryptPass <> None
       /\ Validate h bd true cryptPass = None).
Proof.
  intros H. specialize (H storeValidate 0%nat "").
  assert (Hv : Validate storeValidate 0 true "" = Some ErrBothSizesZero) by reflexivity.
  rewrite Hv in H.
  destruct H as [_ H]; [ | | | discriminate H].
  - concrete_children. left. reflexivity.
  - concrete_children. intros [[E _]|[]]. discriminate E.
  - concrete_children. intros [E|[]]. discriminate E.
Qed.

Lemma Validate_fails_iff_witness :
  Validate storeValidateDisk 0 false "" = Some ErrNoEFI
  /\ Validate storeValidateDisk 0 true "" = None.
Proof.
  destruct (Validate_fails_iff storeValidateDisk 0%nat false "") as (_ & _ & _ & H).
  apply H.
  - concrete_children. left. reflexivity.
  - concrete_children. intros [[E _]|[]]. discriminate E.
  - concrete_children. intros [E|[]]. discriminate E.
  - concrete_children. intros [[E _] _]. apply E. reflexivity.
Defined.

(** ** findFree *)

Lemma findFree_scan_spec h table size :
  match findFree_scan h table size with
  | Some part =>
      exists before after,
        table = before ++ part :: after
        /\ fits size (rows h part)
        /\ Forall (fun p => ~ fits size (rows h p)) before
  | None => Forall (fun p => ~ fits size (rows h p)) table
  end.
Proof.
  induction table as [|p rest IH]; simpl.
  - constructor.
  - destruct (Parted.Number (rows h p) =? 0) eqn:En; simpl.
    + destruct (Parted.FileSystem (rows h p) =? "free")%string eqn:Ef.
      * destruct (size <=? Parted.Size (rows h p)) eqn:Es.
        -- exists [], rest. split; [reflexivity|]. split; [|constructor].
           apply N.eqb_eq in En. apply String.eqb_eq in Ef. apply N.leb_le in Es.
           repeat split; assumption.
        -- apply N.leb_gt in Es.
           assert (Hp : ~ fits size (rows h p)) by (intros [_ Hle]; lia).
           destruct (findFree_scan h rest size) as [part|].
           ++ destruct IH as (before & after & -> & Hfit & Hbefore).
              exists (p :: before), after. repeat split; try apply Hfit.
              constructor; assumption.
           ++ constructor; assumption.
      * apply String.eqb_neq in Ef.
        assert (Hp : ~ fits size (rows h p)) by (intros [[_ Hf] _]; congruence).
        destruct (findFree_scan h rest size) as [part|].
        -- destruct IH as (before & after & -> & Hfit & Hbefore).
           exists (p :: before), after. repeat split; try apply Hfit.
           constructor; assumption.
        -- constructor; assumption.
    + apply N.eqb_neq in En.
      assert (Hp : ~ fits size (rows h p)) by (intros [[Hn _] _]; congruence).
      destruct (findFree_scan h rest size) as [part|].
      * destruct IH as (before & after & -> & Hfit & Hbefore).
        exists (p :: before), after. repeat split; try apply Hfit.
        constructor; assumption.
      * constructor; assumption.
Qed.

Lemma Parted_eta (r : PartedPartition) :
  Parted.mkPart (Parted.Number r) (Parted.Start r) (Parted.End_ r) (Parted.Size r)
    (Parted.FileSystem r) (Parted.Name r) (Parted.Flags r) = r.
Proof. destruct r; reflexivity. Qed.

(** C9: when some free row of the table holds [size] bytes, [findFree]
    returns a newly allocated row (so none of the table's own rows) with the
    fields of the first such row in table order: it fits, and no row before
    it does; the table and its rows are left as they were.  When no free row
    holds [size] bytes, [findFree] returns nil and changes nothing. *)
Theorem findFree_first_fit (h : Store) (bd : loc) (size : N) :
  Forall (fun p => (p < next h)%nat) (table_rows h bd) ->
  (Exists (fun p => fits size (rows h p)) (table_rows h bd) ->
   exists before part after h' freePart,
     findFree h bd size = (h', Some freePart)
     /\ table_rows h bd = before ++ part :: after
     /\ fits size (rows h part)
     /\ Forall (fun p => ~ fits size (rows h p)) before
     /\ rows h' freePart = rows h part
     /\ size <= Parted.Size (rows h' freePart)
     /\ ~ In freePart (table_rows h bd)
     /\ table_rows h' bd = table_rows h bd
     /\ (forall p, (p < next h)%nat -> rows h' p = rows h p))
  /\ (Forall (fun p => is_free (rows h p) -> Parted.Size (rows h p) < size)
        (table_rows h bd) ->
      findFree h bd size = (h, None)).
Proof.
  intros Halloc. unfold findFree.
  pose proof (findFree_scan_spec h (table_rows h bd) size) as Hscan.
  destruct (findFree_scan h (table_rows h bd) size) as [part|]; split.
  - intros _. destruct Hscan as (before & after & Htable & Hfit & Hbefore).
    exists before, part, after.
    unfold PartedPartition_Clone. rewrite Parted_eta. unfold new_row.
    eexists. eexists. split; [reflexivity|]. simpl.
    assert (Hrow : upd (rows h) (next h) (rows h part) (next h) = rows h part).
    { unfold upd. rewrite Nat.eqb_refl. reflexivity. }
    rewrite Hrow.
    split; [exact Htable|]. split; [exact Hfit|]. split; [exact Hbefore|].
    split; [reflexivity|]. split; [apply Hfit|].
    split.
    { intros Hin. rewrite Forall_forall in Halloc. apply Halloc in Hin. lia. }
    split; [reflexivity|].
    intros p Hp. unfold upd.
    destruct (Nat.eqb_spec p (next h)); [lia|reflexivity].
  - intros Hnone. exfalso.
    destruct Hscan as (before & after & Htable & [Hfree Hle] & _).
    rewrite Forall_forall in Hnone.
    assert (Hin : In part (table_rows h bd)).
    { rewrite Htable. apply in_or_app. right. left. reflexivity. }
    specialize (Hnone part Hin Hfree). lia.
  - intros Hex. exfalso. rewrite Exists_exists in Hex.
    destruct Hex as (p & Hin & Hfit).
    rewrite Forall_forall in Hscan. exact (Hscan p Hin Hfit).
  - reflexivity.
Qed.

Lemma findFree_first_fit_witness :
  exists h' freePart,
    findFree storeTable 0 4000000000 = (h', Some freePart)
    /\ rows h' freePart
       = Parted.mkPart 0 7000000000 12000000000 5000000000 "free" "" ""
    /\ ~ In freePart (table_rows storeTable 0).
Proof.
  assert (Halloc : Forall (fun p => (p < next storeTable)%nat) (table_rows storeTable 0)).
  { repeat constructor. }
  destruct (findFree_first_fit storeTable 0%nat 4000000000 Halloc) as [Hsome _].
  destruct Hsome as (before & part & after & h' & freePart & Hf & Ht & _ & Hb & Hr & _ & Hn & _).
  - apply Exists_cons_tl, Exists_cons_tl, Exists_cons_hd.
    split; [split; reflexivity|]. vm_compute. discriminate.
  - exists h', freePart. split; [exact Hf|]. split; [|exact Hn].
    vm_compute in Hf. injection Hf as <- <-. reflexivity.
Defined.

(** ** Merging discovered and user-defined devices *)

Lemma Equals_iff h d u : Equals h d (Some u) = true <-> same_device h d u.
Proof.
  unfold Equals, same_device. rewrite !andb_true_iff, !String.eqb_eq. tauto.
Qed.

Lemma Equals_nil h d : Equals h d None = false.
Proof. reflexivity. Qed.

(** The entry appended for one discovered device. *)
Lemma merge_one_spec h d us :
  (exists before u after,
      us = before ++ Some u :: after
      /\ same_device h d u
      /\ Forall (fun x => Equals h d x = false) before
      /\ merge_one h d us = Some u)
  \/ (Forall (fun x => Equals h d x = false) us /\ merge_one h d us = Some d).
Proof.
  induction us as [|x rest IH]; simpl.
  - right. split; [constructor | reflexivity].
  - destruct (Equals h d x) eqn:E; simpl.
    + left. destruct x as [u|]; [|discriminate E].
      exists [], u, rest. split; [reflexivity|].
      split; [apply Equals_iff, E|]. split; [constructor | reflexivity].
    + destruct IH as [(before & u & after & -> & Hs & Hb & Hm)|[Hall Hm]].
      * left. exists (x :: before), u, after.
        split; [reflexivity|]. split; [exact Hs|]. split; [|exact Hm].
        constructor; assumption.
      * right. split; [|exact Hm]. constructor; assumption.
Qed.

(** C6: merging a discovered list with a non-empty user-defined list gives
    one entry per discovered device, in the same order; the entry is the
    first user-defined device with the same name, model and major:minor when
    there is one (the user-defined node itself, so with its own mount point
    and other fields), and the discovered device otherwise; a user-defined
    device that matches no discovered device is not in the result. *)
Theorem listBlockDevices_merge (h : Store) (bds : list loc) (userDefined : slice ptr) :
  elems userDefined <> [] ->
  let merged := listBlockDevices h bds userDefined in
  List.length merged = List.length bds
  /\ Forall2
       (fun loaded m =>
          (exists before u after,
              elems userDefined = before ++ Some u :: after
              /\ same_device h loaded u
              /\ Forall (fun x => forall u', x = Some u' -> ~ same_device h loaded u') before
              /\ m = Some u)
          \/ ((forall u, In (Some u) (elems userDefined) -> ~ same_device h loaded u)
              /\ m = Some loaded))
       bds merged
  /\ (forall u, In (Some u) (elems userDefined) ->
        (forall loaded, In loaded bds -> ~ same_device h loaded u) ->
        ~ In (Some u) merged).
Proof.
  intros Hne merged. subst merged. unfold listBlockDevices.
  destruct (elems userDefined) as [|u0 us0] eqn:EU; [congruence|].
  simpl List.length. change (S (List.length us0) =? 0)%nat with false. cbv iota.
  set (us := u0 :: us0) in *.
  assert (Hno : forall d x, Equals h d x = false ->
                  forall u', x = Some u' -> ~ same_device h d u').
  { intros d x E u' -> Hs. apply Equals_iff in Hs. congruence. }
  split; [apply length_map|]. split.
  - induction bds as [|d rest IH]; simpl; constructor; [|exact IH].
    destruct (merge_one_spec h d us) as [(before & u & after & Hus & Hs & Hb & Hm)|[Hall Hm]].
    + left. exists before, u, after. repeat split; try assumption; try apply Hs.
      eapply Forall_impl; [|exact Hb]. intros x Hx. apply Hno, Hx.
    + right. split; [|exact Hm]. intros u Hin.
      rewrite Forall_forall in Hall. apply (Hno d (Some u)); auto.
  - intros u Hin Hnone Hmem. apply in_map_iff in Hmem.
    destruct Hmem as (d & Hm & Hd).
    destruct (merge_one_spec h d us) as [(before & u' & after & Hus & Hs & Hb & Hm')|[Hall Hm']].
    + rewrite Hm' in Hm. injection Hm as ->. exact (Hnone d Hd Hs).
    + rewrite Hm' in Hm. injection Hm as ->.
      apply (Hnone u Hd). repeat split; reflexivity.
Qed.

Lemma listBlockDevices_merge_witness :
  listBlockDevices storeMerge [0; 1]%nat (Some [Some 3; Some 2]%nat)
  = [Some 2; Some 1]%nat
  /\ MountPoint (devs storeMerge 2) = "/"
  /\ ~ In (Some 3%nat) (listBlockDevices storeMerge [0; 1]%nat (Some [Some 3; Some 2]%nat)).
Proof.
  assert (Hne : elems (Some [Some 3; Some 2]%nat) <> []) by discriminate.
  destruct (listBlockDevices_merge storeMerge [0; 1]%nat (Some [Some 3; Some 2]%nat) Hne)
    as (_ & _ & Habsent).
  split; [reflexivity|]. split; [reflexivity|].
  apply Habsent.
  - left. reflexivity.
  - intros loaded [<-|[<-|[]]] (E & _); discriminate E.
Defined.

(** ** DiskSize *)

Lemma DiskSize_children_spec (rec : loc -> option (result N)) h chs acc :
  (forall c, In c chs -> has_children h c = true -> rec c <> None) ->
  (exists sizes,
      Forall2 (fun c s => (if has_children h c then rec c
                           else Some (Ok (Size (devs h c)))) = Some (Ok s)) chs sizes
      /\ DiskSize_children rec h chs acc = Some (Ok (fold_left add64 sizes acc)))
  \/ (exists c e,
        In c chs /\ has_children h c = true /\ rec c = Some (Err e)
        /\ DiskSize_children rec h chs acc = Some (Err e)).
Proof.
  revert acc. induction chs as [|c rest IH]; intros acc Hrec; simpl.
  - left. exists []. split; [constructor | reflexivity].
  - fold (has_children h c).
    assert (Hrest : forall c', In c' rest -> has_children h c' = true -> rec c' <> None)
      by (intros c' Hin; apply Hrec; right; exact Hin).
    destruct (has_children h c) eqn:Hc.
    + destruct (rec c) as [[size|e]|] eqn:Er.
      * destruct (IH (add64 acc size) Hrest) as [(sizes & HF & Hd)|(c' & e & Hin & Hc' & Hr & Hd)].
        -- left. exists (size :: sizes). split; [|exact Hd].
           constructor; [rewrite Hc; exact Er | exact HF].
        -- right. exists c', e. repeat split; auto; right; exact Hin.
      * right. exists c, e. repeat split; auto; left; reflexivity.
      * exfalso. apply (Hrec c); auto; left; reflexivity.
    + destruct (IH (add64 acc (Size (devs h c))) Hrest)
        as [(sizes & HF & Hd)|(c' & e & Hin & Hc' & Hr & Hd)].
      * left. exists (Size (devs h c) :: sizes). split; [|exact Hd].
        constructor; [rewrite Hc; reflexivity | exact HF].
      * right. exists c', e. repeat split; auto; right; exact Hin.
Qed.

Lemma DiskSize_children_ext (rec1 rec2 : loc -> option (result N)) h chs acc :
  (forall c, In c chs -> rec1 c = rec2 c) ->
  DiskSize_children rec1 h chs acc = DiskSize_children rec2 h chs acc.
Proof.
  revert acc. induction chs as [|c rest IH]; intros acc Hrec; simpl; [reflexivity|].
  rewrite (Hrec c) by (left; reflexivity).
  assert (Hrest : forall c', In c' rest -> rec1 c' = rec2 c')
    by (intros c' Hin; apply Hrec; right; exact Hin).
  destruct (0 <? List.length (elems (Children (devs h c))))%nat.
  - destruct (rec2 c) as [[size|e]|]; auto.
  - auto.
Qed.

(** On a tree, fuel above the depth is enough, and more fuel changes
    nothing. *)
Lemma DiskSize_total h n bd :
  tree h n bd ->
  exists r, forall fuel, (n <= fuel)%nat -> DiskSize fuel h bd = Some r.
Proof.
  induction 1 as [n bd Hbd Hch IH].
  assert (Hrec : forall c, In c (elems (Children (devs h bd))) ->
                   DiskSize n h c <> None).
  { intros c Hin. destruct (IH c Hin) as [r Hr]. rewrite (Hr n); [discriminate | lia]. }
  assert (Hsame : forall fuel c, (n <= fuel)%nat -> In c (elems (Children (devs h bd))) ->
                    DiskSize fuel h c = DiskSize n h c).
  { intros fuel c Hle Hin. destruct (IH c Hin) as [r Hr].
    rewrite (Hr fuel Hle), (Hr n); [reflexivity | lia]. }
  destruct (DiskSize (S n) h bd) as [r|] eqn:E.
  - exists r. intros fuel Hle. destruct fuel as [|fuel]; [lia|].
    rewrite <- E. simpl.
    rewrite (DiskSize_children_ext (DiskSize fuel h) (DiskSize n h)); [reflexivity|].
    intros c Hin. apply Hsame; [lia | exact Hin].
  - exfalso. simpl in E.
    destruct (DiskSize_children_spec (DiskSize n h) h (elems (Children (devs h bd))) 0)
      as [(sizes & _ & Hd)|(c & e & _ & _ & _ & Hd)].
    + intros c Hin _. apply Hrec, Hin.
    + rewrite Hd in E.
      destruct ((0 <? Size (devs h bd)) && (Size (devs h bd) <? fold_left add64 sizes 0));
        [discriminate|].
      destruct (0 <? Size (devs h bd)); discriminate.
    + rewrite Hd in E. discriminate.
Qed.

Lemma Forall2_functional {A B} (R : A -> B -> Prop) (l : list A) (l1 l2 : list B) :
  (forall a b1 b2, R a b1 -> R a b2 -> b1 = b2) ->
  Forall2 R l l1 -> Forall2 R l l2 -> l1 = l2.
Proof.
  intros HR H1. revert l2. induction H1; intros l2 H2; inversion H2; subst; [reflexivity|].
  f_equal; eauto.
Qed.

Lemma Forall2_In_left {A B} (R : A -> B -> Prop) (l : list A) (l' : list B) (a : A) :
  Forall2 R l l' -> In a l -> exists b, R a b.
Proof.
  induction 1 as [|x y l l' Hxy HF IH]; intros Hin; [destruct Hin|].
  destruct Hin as [<-|Hin]; eauto.
Qed.

Lemma DiskSize_unfold fuel h bd :
  DiskSize (S fuel) h bd =
  match DiskSize_children (DiskSize fuel h) h (elems (Children (devs h bd))) 0 with
  | None => None
  | Some (Err e) => Some (Err e)
  | Some (Ok childSize) =>
    if (0 <? Size (devs h bd)) && (Size (devs h bd) <? childSize)
    then Some (Err (ErrPartitionSizes (Name (devs h bd)) childSize (Size (devs h bd))))
    else if 0 <? Size (devs h bd) then Some (Ok (Size (devs h bd)))
    else Some (Ok childSize)
  end.
Proof. reflexivity. Qed.

(** C3 (as amended): on a tree, [DiskSize] returns.  It returns an error
    exactly when a child that has children returns an error from its own
    [DiskSize], or the device's size is above 0 and below the sum of what the
    children contribute; otherwise it returns the device's size when that is
    above 0, and the children's sum when it is 0.  Sums are [uint64] sums. *)
Theorem DiskSize_spec (h : Store) (n : nat) (bd : loc) (fuel : nat) :
  tree h n bd -> (n <= fuel)%nat ->
  let d := devs h bd in
  let chs := elems (Children d) in
  let child_error :=
    exists c e, In c chs /\ has_children h c = true
                /\ DiskSize fuel h c = Some (Err e) in
  let child_sizes sizes :=
    Forall2 (fun c s => contribution fuel h c = Some (Ok s)) chs sizes in
  DiskSize fuel h bd <> None
  /\ ((exists e, DiskSize fuel h bd = Some (Err e)) <->
      child_error
      \/ (exists sizes, child_sizes sizes /\ 0 < Size d /\ Size d < sum64 sizes))
  /\ (forall v, DiskSize fuel h bd = Some (Ok v) <->
      exists sizes, child_sizes sizes
                    /\ ~ (0 < Size d /\ Size d < sum64 sizes)
                    /\ v = if 0 <? Size d then Size d else sum64 sizes).
Proof.
  intros Ht Hle d chs child_error child_sizes.
  inversion Ht as [n' bd' Hbd Hch Hn Hbd']; subst n bd'.
  destruct fuel as [|f]; [lia|].
  assert (Hsame : forall c, In c chs ->
            DiskSize f h c = DiskSize (S f) h c /\ DiskSize (S f) h c <> None).
  { intros c Hin. destruct (DiskSize_total h n' c (Hch c Hin)) as [r Hr].
    rewrite (Hr f), (Hr (S f)) by lia. split; [reflexivity | discriminate]. }
  assert (Hfun : forall sizes1 sizes2,
            child_sizes sizes1 -> child_sizes sizes2 -> sizes1 = sizes2).
  { intros s1 s2. apply Forall2_functional. intros a b1 b2 H1 H2. congruence. }
  assert (Hexcl : forall sizes, child_error -> child_sizes sizes -> False).
  { intros sizes (c & e & Hin & Hc & He) HF.
    destruct (Forall2_In_left _ _ _ _ HF Hin) as [s Hs].
    unfold contribution in Hs. rewrite Hc, He in Hs. discriminate. }
  rewrite (DiskSize_unfold f h bd).
  rewrite (DiskSize_children_ext (DiskSize f h) (DiskSize (S f) h))
    by (intros c Hin; apply Hsame, Hin).
  fold d chs.
  destruct (DiskSize_children_spec (DiskSize (S f) h) h chs 0)
    as [(sizes & HF & Hd)|(c & e & Hin & Hc & Hr & Hd)].
  - intros c Hin _. apply Hsame, Hin.
  - (* every child contributes a size *)
    fold (sum64 sizes) in Hd. rewrite Hd.
    assert (HF' : child_sizes sizes) by exact HF.
    destruct (0 <? Size d) eqn:E0; simpl.
    + destruct (Size d <? sum64 sizes) eqn:E1.
      * apply N.ltb_lt in E0, E1. split; [discriminate|]. split.
        -- split; [|eexists; reflexivity].
           intros _. right. exists sizes. auto.
        -- intros v. split; [discriminate|].
           intros (sizes' & HFs & Hnot & _).
           rewrite (Hfun _ _ HFs HF') in Hnot. exfalso. apply Hnot. auto.
      * apply N.ltb_lt in E0. apply N.ltb_ge in E1. split; [discriminate|]. split.
        -- split; [intros [e He]; discriminate He|].
           intros [Hce|(sizes' & HFs & _ & Hlt)].
           ++ exfalso. exact (Hexcl _ Hce HF').
           ++ rewrite (Hfun _ _ HFs HF') in Hlt. lia.
        -- intros v. split.
           ++ intros Hv. injection Hv as <-. exists sizes.
              split; [exact HF'|]. split; [lia | reflexivity].
           ++ intros (sizes' & HFs & _ & ->). reflexivity.
    + apply N.ltb_ge in E0. split; [discriminate|]. split.
      * split; [intros [e He]; discriminate He|].
        intros [Hce|(sizes' & HFs & Hpos & _)].
        -- exfalso. exact (Hexcl _ Hce HF').
        -- lia.
      * intros v. split.
        -- intros Hv. injection Hv as <-. exists sizes.
           split; [exact HF'|]. split; [lia | reflexivity].
        -- intros (sizes' & HFs & _ & ->).
           rewrite (Hfun _ _ HFs HF'). reflexivity.
  - (* a child with children fails *)
    rewrite Hd.
    assert (Hce : child_error) by (exists c, e; auto).
    split; [discriminate|]. split.
    + split; [intros _; left; exact Hce | intros _; eexists; reflexivity].
    + intros v. split; [discriminate|].
      intros (sizes & HFs & _). exfalso. exact (Hexcl _ Hce HFs).
Qed.

(** C3, the claim as stated fails: a device of declared size 0 returns an
    error when a child with children fails its own check. *)
Lemma DiskSize_counterexample :
  ~ (forall (h : Store) (bd : loc) (fuel : nat) (e : error),
       DiskSize fuel h bd = Some (Err e) -> 0 < Size (devs h bd)).
Proof.
  intros H.
  specialize (H storeDiskSize 0%nat 3%nat (ErrPartitionSizes "lv" 20 10) eq_refl).
  vm_compute in H. discriminate H.
Qed.

Lemma DiskSize_spec_witness :
  DiskSize 2 storeDiskSizeOk 0 = Some (Ok 100)
  /\ exists e, DiskSize 3 storeDiskSize 0 = Some (Err e).
Proof.
  split.
  - assert (Ht : tree storeDiskSizeOk 2 0).
    { constructor; [vm_compute; lia|]. intros c [<-|[<-|[]]];
        (constructor; [vm_compute; lia | intros c' []]). }
    destruct (DiskSize_spec storeDiskSizeOk 2 0 2 Ht (le_n 2)) as (_ & _ & Hok).
    apply Hok. exists [30; 50]. split; [repeat constructor|].
    split; [vm_compute; intros [_ H]; discriminate H | reflexivity].
  - assert (Ht : tree storeDiskSize 3 0).
    { constructor; [vm_compute; lia|]. intros c [<-|[]].
      constructor; [vm_compute; lia|]. intros c [<-|[]].
      constructor; [vm_compute; lia | intros c' []]. }
    destruct (DiskSize_spec storeDiskSize 3 0 3 Ht (le_n 3)) as (_ & Herr & _).
    apply Herr. left. exists 1%nat, (ErrPartitionSizes "lv" 20 10).
    split; [left; reflexivity|]. split; reflexivity.
Defined.

(** ** AddChild, and the standard layout *)

Ltac eqb_solve :=
  repeat match goal with
  | |- context [Nat.eqb ?a ?b] =>
      first [ rewrite (Nat.eqb_refl a)
            | let H := fresh in
              assert (H : Nat.eqb a b = false) by (apply Nat.eqb_neq; lia);
              rewrite H; clear H ]
  end.

Ltac store_simpl :=
  repeat (progress (unfold modify, store_dev, new_row, new_table, new_dev, upd;
                    simpl; eqb_solve)).

(** [AddChild] appends the child, points it to its parent and names it when
    it has no name; nothing else changes. *)
Lemma AddChild_spec h bd child :
  child <> bd ->
  let h' := AddChild h bd child in
  devs h' bd = set_Children (Some (elems (Children (devs h bd)) ++ [child])) (devs h bd)
  /\ devs h' child =
     set_Name (childName (devs h bd) (devs h child))
       (set_Parent (Some bd) (devs h child))
  /\ (forall q, q <> bd -> q <> child -> devs h' q = devs h q)
  /\ rows h' = rows h /\ tables h' = tables h /\ next h' = next h.
Proof.
  intros Hne. unfold AddChild, childName.
  assert (Hfin : forall (h3 : Store),
             devs h3 bd = set_Children (Some (elems (Children (devs h bd)) ++ [child])) (devs h bd) ->
             devs h3 child = set_Parent (Some bd) (devs h child) ->
             (forall q, q <> bd -> q <> child -> devs h3 q = devs h q) ->
             rows h3 = rows h -> tables h3 = tables h -> next h3 = next h ->
             let h' :=
               if (Name (devs h3 child) =? "")%string then
                 if partition (devs h3 child) <? 1
                 then modify h3 child (set_Name (getBasePartitionName (devs h3 bd) ++ "?")%string)
                 else modify h3 child
                        (set_Name (getBasePartitionName (devs h3 bd)
                                   ++ fmt_d (partition (devs h3 child)))%string)
               else h3 in
             devs h' bd = set_Children (Some (elems (Children (devs h bd)) ++ [child])) (devs h bd)
             /\ devs h' child =
                set_Name
                  (if (Name (devs h child) =? "")%string then
                     if partition (devs h child) <? 1
                     then (getBasePartitionName (devs h bd) ++ "?")%string
                     else (getBasePartitionName (devs h bd) ++ fmt_d (partition (devs h child)))%string
                   else Name (devs h child))
                  (set_Parent (Some bd) (devs h child))
             /\ (forall q, q <> bd -> q <> child -> devs h' q = devs h q)
             /\ rows h' = rows h /\ tables h' = tables h /\ next h' = next h).
  { intros h3 Hbd Hch Hq Hr Ht Hn. rewrite Hch, Hbd. simpl.
    unfold getBasePartitionName. simpl.
    destruct (Name (devs h child) =? "")%string eqn:En.
    - destruct (partition (devs h child) <? 1) eqn:Ep; store_simpl;
        (split; [exact Hbd|]); (split; [rewrite Hch; reflexivity|]);
        (split; [|auto]); intros q H1 H2; eqb_solve; auto.
    - split; [exact Hbd|]. split.
      + rewrite Hch. destruct (devs h child); reflexivity.
      + auto. }
  destruct (Children (devs h bd)) as [l|] eqn:Ec.
  - apply Hfin; store_simpl; rewrite ?Ec; auto.
    intros q H1 H2. eqb_solve. reflexivity.
  - apply Hfin; store_simpl; rewrite ?Ec; auto.
    intros q H1 H2. eqb_solve. reflexivity.
Qed.

Lemma findFree_hit h bd size part :
  findFree_scan h (table_rows h bd) size = Some part ->
  findFree h bd size = (fst (new_row h (rows h part)), Some (next h)).
Proof.
  intros H. unfold findFree. rewrite H. unfold PartedPartition_Clone.
  rewrite Parted_eta. reflexivity.
Qed.

Lemma findFree_scan_single h r size :
  is_free (rows h r) -> size <= Parted.Size (rows h r) ->
  findFree_scan h [r] size = Some r.
Proof.
  intros [Hn Hf] Hle. simpl. rewrite Hn, Hf. simpl.
  apply N.leb_le in Hle. rewrite Hle. reflexivity.
Qed.

(** One allocation of the planner, from a table that is a single free row
    of [size] bytes at [start]. *)
Lemma allocate_step carve h disk kids start size want fs mp lbl :
  planner_state h disk kids start size ->
  want <= size ->
  let lit := standardPartition want fs mp lbl in
  let h' := allocate carve h disk want lit in
  let child := S (next h) in
  (next h <= next h')%nat /\ (child < next h')%nat
  /\ devs h' child =
     set_Parent (Some disk)
       (set_Name (getBasePartitionName (devs h disk) ++ "?")%string lit)
  /\ (forall q, (q < next h)%nat -> q <> disk -> devs h' q = devs h q)
  /\ Size (devs h' disk) = Size (devs h disk)
  /\ getBasePartitionName (devs h' disk) = getBasePartitionName (devs h disk)
  /\ planner_state h' disk (kids ++ [child])
       (if carve then add64 start want else start)
       (if carve then sub64 size want else size).
Proof.
  intros (Hd & Hk & r & Ht & Hr & Hfree & Hstart & Hsize) Hw lit h' child.
  subst h' child. unfold allocate.
  rewrite (findFree_hit h disk want r)
    by (rewrite Ht; apply findFree_scan_single; [exact Hfree | rewrite Hsize; exact Hw]).
  remember (new_dev (fst (new_row h (rows h r))) lit) as p eqn:Ep.
  destruct p as [h2 child]. unfold new_dev in Ep. injection Ep as Eh2 Ech.
  simpl in Ech. subst child.
  assert (Hne : S (next h) <> disk) by lia.
  assert (H2d : forall q, (q < next h)%nat -> devs h2 q = devs h q).
  { intros q Hq. rewrite Eh2. store_simpl. reflexivity. }
  assert (H2c : devs h2 (S (next h)) = lit).
  { rewrite Eh2. store_simpl. reflexivity. }
  assert (H2r : forall q, (q < next h)%nat -> rows h2 q = rows h q).
  { intros q Hq. rewrite Eh2. store_simpl. reflexivity. }
  assert (H2f : rows h2 (next h) = rows h r).
  { rewrite Eh2. store_simpl. reflexivity. }
  assert (H2t : tables h2 = tables h) by (rewrite Eh2; reflexivity).
  assert (H2n : next h2 = S (S (next h))) by (rewrite Eh2; reflexivity).
  clear Eh2.
  unfold AddFromFreePartition.
  destruct carve.
  - (* the region is taken off the table *)
    match goal with |- context [AddChild ?hh disk _] => remember hh as h3 eqn:E3 end.
    assert (Htr : table_rows h2 disk = [r]).
    { unfold table_rows. rewrite H2d, H2t by lia. exact Ht. }
    rewrite Htr in E3. simpl carve_rows in E3.
    rewrite (H2r r Hr) in E3. destruct Hfree as [Hn Hf].
    rewrite Hn, Hf, H2f, Hstart, !N.eqb_refl in E3. simpl andb in E3. cbv iota in E3.
    unfold new_table in E3. cbv beta iota zeta in E3. simpl next in E3.
    rewrite !H2n in E3.
    assert (H3d : devs h3 disk = set_PartTable (Some (S (S (S (next h))))) (devs h disk)).
    { rewrite E3. store_simpl. rewrite H2d by lia. reflexivity. }
    assert (H3q : forall q, q <> disk -> devs h3 q = devs h2 q).
    { intros q Hq. rewrite E3. store_simpl. reflexivity. }
    assert (H3t : tables h3 (S (S (S (next h)))) = [S (S (next h))]).
    { rewrite E3. store_simpl. reflexivity. }
    assert (H3r : rows h3 (S (S (next h)))
                  = Parted.mkPart 0 (add64 start (Size (devs h2 (S (next h)))))
                      (Parted.End_ (rows h r))
                      (sub64 (Parted.Size (rows h r)) (Size (devs h2 (S (next h)))))
                      "free" "" "").
    { rewrite E3. store_simpl. reflexivity. }
    assert (H3n : next h3 = S (S (S (S (next h))))) by (rewrite E3; reflexivity).
    clear E3.
    destruct (AddChild_spec h3 disk (S (next h)) Hne) as (Ad & Ac & Aq & Ar & At & An).
    rewrite An, H3n. split; [lia|]. split; [lia|].
    rewrite Ac, Ad, (H3q _ Hne), H2c, H3d. simpl.
    split; [reflexivity|].
    split; [intros q Hq Hqd; rewrite Aq, H3q, H2d by lia; reflexivity|].
    split; [reflexivity|]. split; [reflexivity|].
    unfold planner_state. rewrite Ad, An, H3n, H3d. simpl.
    split; [lia|]. split; [rewrite Hk; reflexivity|].
    exists (S (S (next h))). unfold table_rows. rewrite Ad, At, Ar, H3d. simpl.
    rewrite H3t, H3r, H2c, Hsize. simpl.
    split; [reflexivity|]. split; [lia|]. repeat split.
  - (* the table is left as it is *)
    destruct (AddChild_spec h2 disk (S (next h)) Hne) as (Ad & Ac & Aq & Ar & At & An).
    rewrite An, H2n. split; [lia|]. split; [lia|].
    rewrite Ac, Ad, H2c, (H2d disk Hd). simpl.
    split; [reflexivity|].
    split; [intros q Hq Hqd; rewrite Aq, H2d by lia; reflexivity|].
    split; [reflexivity|]. split; [reflexivity|].
    unfold planner_state. rewrite Ad, An, H2n, (H2d disk Hd). simpl.
    split; [lia|]. split; [rewrite Hk; reflexivity|].
    exists r. unfold table_rows. rewrite Ad, At, Ar, (H2d disk Hd), H2t. simpl.
    unfold table_rows in Ht. rewrite Ht, (H2r r Hr).
    split; [reflexivity|]. split; [lia|]. split; [exact Hfree|]. split; assumption.
Qed.

Lemma NewStandardPartitions_allocate carve h disk :
  NewStandardPartitions carve h disk =
  let h0 := NewStandardPartitions_reset h disk in
  let rootSize := sub64 (sub64 (Size (devs h0 disk)) bootSize) swapSize in
  allocate carve
    (allocate carve
       (allocate carve h0 disk bootSize (standardPartition bootSize "vfat" "/boot" "boot"))
       disk swapSize (standardPartition swapSize "swap" "" "swap"))
    disk rootSize (standardPartition rootSize "ext4" "/" "root").
Proof.
  unfold NewStandardPartitions, allocate. cbv zeta.
  destruct (findFree (NewStandardPartitions_reset h disk) disk bootSize) as [h1 f1].
  unfold new_dev at 1 4. 
  match goal with |- context [findFree ?hh disk swapSize] =>
    destruct (findFree hh disk swapSize) as [h4 f2] end.
  unfold new_dev at 1 3.
  match goal with |- context [findFree ?hh disk ?sz] =>
    destruct (findFree hh disk sz) as [h7 f3] end.
  reflexivity.
Qed.

Lemma NewStandardPartitions_reset_spec h disk :
  (disk < next h)%nat ->
  let h0 := NewStandardPartitions_reset h disk in
  Children (devs h0 disk) = None
  /\ table_rows h0 disk = [next h]
  /\ rows h0 (next h)
     = Parted.mkPart 0 0 (Size (devs h disk)) (Size (devs h disk)) "free" "" ""
  /\ next h0 = S (S (next h))
  /\ Size (devs h0 disk) = Size (devs h disk)
  /\ getBasePartitionName (devs h0 disk) = getBasePartitionName (devs h disk)
  /\ (forall q, q <> disk -> devs h0 q = devs h q).
Proof.
  intros Hd. unfold NewStandardPartitions_reset, table_rows. store_simpl.
  repeat split. intros q Hq. eqb_solve. reflexivity.
Qed.

(** C2: on a disk of 10,000,000,000 bytes, [NewStandardPartitions] first
    drops the children and replaces the table by one new free row over the
    whole disk, then leaves exactly three new children, in this order: boot
    (vfat, "/boot", 150,000,000), swap (256,000,000) and root (ext4, "/",
    9,594,000,000), each a partition with [MakePartition] and
    [FormatPartition] set and the disk as parent; their sizes add up to the
    disk's.  This holds under both readings of [AddFromFreePartition]. *)
Theorem NewStandardPartitions_10GB (carve : bool) (h : Store) (disk : loc) :
  (disk < next h)%nat ->
  Size (devs h disk) = 10000000000 ->
  let h0 := NewStandardPartitions_reset h disk in
  let h' := NewStandardPartitions carve h disk in
  (Children (devs h0 disk) = None
   /\ exists free,
        table_rows h0 disk = [free] /\ (next h <= free)%nat
        /\ rows h0 free = Parted.mkPart 0 0 10000000000 10000000000 "free" "" "")
  /\ exists boot swap root,
       elems (Children (devs h' disk)) = [boot; swap; root]
       /\ (next h <= boot)%nat /\ (boot < swap)%nat /\ (swap < root)%nat
       /\ planned (devs h' boot) "vfat" "/boot" 150000000 disk
       /\ planned (devs h' swap) "swap" "" 256000000 disk
       /\ planned (devs h' root) "ext4" "/" 9594000000 disk
       /\ Size (devs h' boot) + Size (devs h' swap) + Size (devs h' root)
          = Size (devs h' disk).
Proof.
  intros Hd Hs h0 h'.
  destruct (NewStandardPartitions_reset_spec h disk Hd)
    as (R1 & R2 & R3 & R4 & R5 & R6 & R7).
  fold h0 in R1, R2, R3, R4, R5, R6, R7. rewrite Hs in R3, R5.
  split.
  { split; [exact R1|]. exists (next h). split; [exact R2|]. split; [lia | exact R3]. }
  subst h'. rewrite NewStandardPartitions_allocate. cbv zeta. fold h0. rewrite R5.
  change (sub64 (sub64 10000000000 bootSize) swapSize) with 9594000000.
  change bootSize with 150000000. change swapSize with 256000000.
  assert (P0 : planner_state h0 disk [] 0 10000000000).
  { unfold planner_state. rewrite R1, R4. split; [lia|]. split; [reflexivity|].
    exists (next h). rewrite R2, R3. split; [reflexivity|]. split; [lia|]. repeat split. }
  assert (W1 : 150000000 <= 10000000000) by (vm_compute; discriminate).
  destruct (allocate_step carve h0 disk [] 0 10000000000 150000000 "vfat" "/boot" "boot" P0 W1)
    as (A1 & A2 & A3 & A4 & A5 & A6 & P1).
  set (h1 := allocate carve h0 disk 150000000 (standardPartition 150000000 "vfat" "/boot" "boot")) in *.
  assert (W2 : 256000000 <= (if carve then sub64 10000000000 150000000 else 10000000000))
    by (destruct carve; vm_compute; discriminate).
  destruct (allocate_step carve h1 disk _ _ _ 256000000 "swap" "" "swap" P1 W2)
    as (B1 & B2 & B3 & B4 & B5 & B6 & P2).
  set (h2 := allocate carve h1 disk 256000000 (standardPartition 256000000 "swap" "" "swap")) in *.
  assert (W3 : 9594000000 <=
               (if carve then sub64 (if carve then sub64 10000000000 150000000 else 10000000000) 256000000
                else if carve then sub64 10000000000 150000000 else 10000000000))
    by (destruct carve; vm_compute; discriminate).
  destruct (allocate_step carve h2 disk _ _ _ 9594000000 "ext4" "/" "root" P2 W3)
    as (C1 & C2 & C3 & C4 & C5 & C6 & P3).
  set (h3 := allocate carve h2 disk 9594000000 (standardPartition 9594000000 "ext4" "/" "root")) in *.
  exists (S (next h0)), (S (next h1)), (S (next h2)).
  destruct P3 as (_ & Hkids & _).
  assert (Hboot : devs h3 (S (next h0)) = devs h1 (S (next h0))).
  { rewrite C4, B4 by lia. reflexivity. }
  assert (Hswap : devs h3 (S (next h1)) = devs h2 (S (next h1))).
  { rewrite C4 by lia. reflexivity. }
  split; [exact Hkids|].
  split; [lia|]. split; [lia|]. split; [lia|].
  rewrite Hboot, Hswap, A3, B3, C3, C5, B5, A5, R5.
  repeat split.
Qed.

Lemma NewStandardPartitions_10GB_witness :
  exists boot swap root,
    elems (Children (devs (NewStandardPartitions true storePlanner 0) 0))
    = [boot; swap; root]
    /\ Size (devs (NewStandardPartitions true storePlanner 0) root) = 9594000000.
Proof.
  assert (Hd : (0 < next storePlanner)%nat) by (vm_compute; lia).
  destruct (NewStandardPartitions_10GB true storePlanner 0%nat Hd eq_refl)
    as (_ & boot & swap & root & Hk & _ & _ & _ & _ & _ & (_ & _ & Hr & _) & _).
  exists boot, swap, root. split; [exact Hk | exact Hr].
Defined.

(** ** Clone and RemoveChild *)

Lemma cloned_range old new lo hi parent bd clone :
  cloned old new lo hi parent bd clone -> (lo <= clone < hi)%nat.
Proof. inversion 1; assumption. Qed.

Lemma cloned_list_range old new lo hi parent cs cs' :
  cloned_list old new lo hi parent cs cs' -> (lo <= hi)%nat.
Proof.
  intros H.
  refine (cloned_list_ind2 old new
            (fun lo hi _ _ _ _ => (lo < hi)%nat)
            (fun lo hi _ _ _ _ => (lo <= hi)%nat) _ _ _ lo hi parent cs cs' H);
    intros; lia.
Qed.

(** A copy stays a copy when the new store changes outside its range. *)
Lemma cloned_agree old new new' :
  (forall lo hi parent bd clone,
      cloned old new lo hi parent bd clone ->
      (forall q, (lo <= q < hi)%nat -> new' q = new q) ->
      cloned old new' lo hi parent bd clone)
  /\ (forall lo hi parent cs cs',
      cloned_list old new lo hi parent cs cs' ->
      (forall q, (lo <= q < hi)%nat -> new' q = new q) ->
      cloned_list old new' lo hi parent cs cs').
Proof.
  assert (Hc : forall lo hi parent bd clone (H : cloned old new lo hi parent bd clone),
             (forall q, (lo <= q < hi)%nat -> new' q = new q) ->
             cloned old new' lo hi parent bd clone).
  { apply (cloned_ind2 old new
      (fun lo hi parent bd clone _ =>
         (forall q, (lo <= q < hi)%nat -> new' q = new q) ->
         cloned old new' lo hi parent bd clone)
      (fun lo hi parent cs cs' _ =>
         (forall q, (lo <= q < hi)%nat -> new' q = new q) ->
         cloned_list old new' lo hi parent cs cs')).
    - intros lo hi parent bd clone cs' Hr Hn Hl IH Hag.
      econstructor; [exact Hr | rewrite Hag by lia; exact Hn |].
      apply IH. intros q Hq. apply Hag. lia.
    - intros lo hi parent Hle _. constructor. exact Hle.
    - intros lo mid hi parent c c' cs cs' Hc IHc Hl IHl Hag.
      pose proof (cloned_range _ _ _ _ _ _ _ Hc).
      pose proof (cloned_list_range _ _ _ _ _ _ _ Hl).
      econstructor.
      + apply IHc. intros q Hq. apply Hag. lia.
      + apply IHl. intros q Hq. apply Hag. lia. }
  split; [exact Hc|].
  intros lo hi parent cs cs' H. induction H as [lo hi parent Hle|lo mid hi parent c c' cs cs' Hcl Hl IH];
    intros Hag.
  - constructor. exact Hle.
  - pose proof (cloned_range _ _ _ _ _ _ _ Hcl).
    pose proof (cloned_list_range _ _ _ _ _ _ _ Hl).
    econstructor.
    + apply Hc; [exact Hcl|]. intros q Hq. apply Hag. lia.
    + apply IH. intros q Hq. apply Hag. lia.
Qed.

(** The range of a copy can be widened. *)
Lemma cloned_widen old new lo hi parent bd clone lo' hi' :
  cloned old new lo hi parent bd clone ->
  (lo' <= lo)%nat -> (hi <= hi')%nat ->
  cloned old new lo' hi' parent bd clone.
Proof.
  intros H Hlo Hhi. inversion H as [lo0 hi0 p0 bd0 cl0 cs' Hr Hn Hl]; subst.
  econstructor; [lia | exact Hn |].
  clear - Hl Hhi. 
  remember (S clone) as lo. clear Heqlo.
  revert hi' Hhi. induction Hl as [lo hi parent Hle|lo mid hi parent c c' cs cs' Hcl Hl IH]; intros hi' Hhi.
  - constructor. lia.
  - econstructor; [exact Hcl|]. apply IH. exact Hhi.
Qed.

Lemma cloned_list_widen old new lo hi parent cs cs' hi' :
  cloned_list old new lo hi parent cs cs' ->
  (hi <= hi')%nat ->
  cloned_list old new lo hi' parent cs cs'.
Proof.
  intros Hl. revert hi'.
  induction Hl as [lo hi parent Hle|lo mid hi parent c c' cs cs' Hcl Hl IH]; intros hi' Hhi.
  - constructor. lia.
  - econstructor; [exact Hcl|]. apply IH. exact Hhi.
Qed.

(** A copied list extended by one more copy, at the end. *)
Lemma cloned_list_snoc old new lo mid hi parent cs cs' c c' :
  cloned_list old new lo mid parent cs cs' ->
  cloned old new mid hi parent c c' ->
  cloned_list old new lo hi parent (cs ++ [c]) (cs' ++ [c']).
Proof.
  intros Hl Hc. induction Hl as [lo mid parent Hle|lo m mid parent c0 c0' cs cs' Hcl Hl IH]; simpl.
  - pose proof (cloned_range _ _ _ _ _ _ _ Hc).
    econstructor; [apply (cloned_widen _ _ _ _ _ _ _ lo hi Hc); lia|].
    constructor. lia.
  - econstructor; [exact Hcl|]. apply IH. exact Hc.
Qed.

(** The loop of [Clone]: with the copies [acc] of the children [done]
    already attached, the remaining children are copied and attached in
    order. *)
Lemma Clone_children_spec (rec : Store -> loc -> option (Store * loc))
  (h hc : Store) (bd clone : loc) (children : list loc) :
  clone = next hc -> (next h <= next hc)%nat ->
  (forall c hk, In c children -> extends h hk ->
     exists h', rec hk c = Some (h', next hk)
       /\ (next hk < next h')%nat /\ rows h' = rows hk /\ tables h' = tables hk
       /\ (forall q, (q < next hk)%nat -> devs h' q = devs hk q)
       /\ cloned (devs h) (devs h') (next hk) (next h') (Parent (devs h c)) c (next hk)) ->
  forall cs done acc hk,
    done ++ cs = children ->
    extends h hk -> (clone < next hk)%nat ->
    rows hk = rows hc -> tables hk = tables hc ->
    (forall q, (q < clone)%nat -> devs hk q = devs hc q) ->
    devs hk clone = set_Children (Some acc) (Clone_literal (devs h bd)) ->
    cloned_list (devs h) (devs hk) (S clone) (next hk) (Some clone) done acc ->
    exists h' acc',
      Clone_children rec hk clone cs = Some h'
      /\ (next hk <= next h')%nat
      /\ rows h' = rows hc /\ tables h' = tables hc
      /\ (forall q, (q < clone)%nat -> devs h' q = devs hc q)
      /\ devs h' clone = set_Children (Some acc') (Clone_literal (devs h bd))
      /\ cloned_list (devs h) (devs h') (S clone) (next h') (Some clone) children acc'.
Proof.
  intros Hclone Hnext Hrec cs.
  induction cs as [|c rest IH]; intros done acc hk Hsplit Hext Hlt Hrows Htabs Hframe Hnode Hdone.
  - rewrite app_nil_r in Hsplit. subst done. simpl.
    exists hk, acc. repeat split; auto.
  - assert (Hin : In c children).
    { rewrite <- Hsplit. apply in_or_app. right. left. reflexivity. }
    destruct (Hrec c hk Hin Hext) as (h1 & Hr & Hn1 & Hrows1 & Htabs1 & Hframe1 & Hcl).
    simpl. rewrite Hr.
    set (cc := next hk) in *.
    set (h3 := modify (modify h1 cc (set_Parent (Some clone))) clone
                 (fun b => set_Children (append (Children b) cc) b)).
    assert (H3cc : devs h3 cc = set_Parent (Some clone) (devs h1 cc)).
    { subst h3. store_simpl. reflexivity. }
    assert (H3clone : devs h3 clone
                      = set_Children (Some (acc ++ [cc])) (Clone_literal (devs h bd))).
    { subst h3. store_simpl. rewrite (Hframe1 clone Hlt), Hnode. reflexivity. }
    assert (H3q : forall q, q <> cc -> q <> clone -> devs h3 q = devs h1 q).
    { intros q H1 H2. subst h3. store_simpl. reflexivity. }
    destruct Hext as [Hext1 Hext2].
    destruct (IH (done ++ [c]) (acc ++ [cc]) h3) as (h' & acc' & Hloop & Hn' & Hrows' & Htabs' & Hframe' & Hnode' & Hall).
    + rewrite <- app_assoc. exact Hsplit.
    + split; [subst h3; simpl; lia|].
      intros q Hq. rewrite H3q by (subst cc; lia). rewrite Hframe1 by (subst cc; lia).
      apply Hext2, Hq.
    + subst h3. simpl. lia.
    + subst h3. simpl. congruence.
    + subst h3. simpl. congruence.
    + intros q Hq. rewrite H3q by (subst cc; lia). rewrite Hframe1 by (subst cc; lia).
      apply Hframe, Hq.
    + exact H3clone.
    + apply (cloned_list_snoc _ _ _ cc).
      * apply (proj2 (cloned_agree (devs h) (devs hk) (devs h3))); [exact Hdone|].
        intros q Hq. rewrite H3q by (subst cc; lia). apply Hframe1. subst cc. lia.
      * inversion Hcl as [lo0 hi0 p0 bd0 cl0 gs Hr0 Hn0 Hl0]; subst.
        change (next h3) with (next h1).
        econstructor; [exact Hr0 | rewrite H3cc, Hn0; reflexivity |].
        apply (proj2 (cloned_agree (devs h) (devs h1) (devs h3))); [exact Hl0|].
        intros q Hq. apply H3q; subst cc; lia.
    + exists h', acc'. split; [exact Hloop|].
      split; [subst h3; simpl in Hn'; lia|]. auto.
Qed.

Lemma Clone_unfold fuel hc bd :
  Clone (S fuel) hc bd =
  let h2 := modify (fst (new_dev hc (Clone_literal (devs hc bd)))) (next hc)
              (set_Children (Some [])) in
  match Clone_children (Clone fuel) h2 (next hc) (elems (Children (devs h2 bd))) with
  | None => None
  | Some h3 => Some (h3, next hc)
  end.
Proof. reflexivity. Qed.

(** [Clone] on a tree: it returns, it leaves every node that was there as it
    was (and every row and table), and the new nodes hold a copy of the tree,
    headed by the first new address. *)
Lemma Clone_tree h n bd :
  tree h n bd ->
  forall fuel hc, (n <= fuel)%nat -> extends h hc ->
    exists h', Clone fuel hc bd = Some (h', next hc)
      /\ (next hc < next h')%nat /\ rows h' = rows hc /\ tables h' = tables hc
      /\ (forall q, (q < next hc)%nat -> devs h' q = devs hc q)
      /\ cloned (devs h) (devs h') (next hc) (next h') (Parent (devs h bd)) bd (next hc).
Proof.
  induction 1 as [n bd Hbd Hch IH]. intros fuel hc Hfuel Hext.
  destruct fuel as [|f]; [lia|].
  destruct Hext as [Hext1 Hext2].
  rewrite Clone_unfold. cbv zeta.
  remember (modify (fst (new_dev hc (Clone_literal (devs hc bd)))) (next hc)
              (set_Children (Some []))) as h2 eqn:E2.
  assert (H2bd : devs h2 bd = devs h bd).
  { rewrite E2. store_simpl. apply Hext2, Hbd. }
  assert (H2clone : devs h2 (next hc) = set_Children (Some []) (Clone_literal (devs h bd))).
  { rewrite E2. store_simpl. rewrite (Hext2 bd Hbd). reflexivity. }
  assert (H2q : forall q, (q < next hc)%nat -> devs h2 q = devs hc q).
  { intros q Hq. rewrite E2. store_simpl. reflexivity. }
  assert (H2n : next h2 = S (next hc)) by (rewrite E2; reflexivity).
  assert (H2r : rows h2 = rows hc) by (rewrite E2; reflexivity).
  assert (H2t : tables h2 = tables hc) by (rewrite E2; reflexivity).
  clear E2.
  rewrite H2bd.
  destruct (Clone_children_spec (Clone f) h hc bd (next hc) (elems (Children (devs h bd))) eq_refl Hext1)
    with (cs := elems (Children (devs h bd))) (done := @nil loc) (acc := @nil loc) (hk := h2)
    as (h' & acc' & Hloop & Hn' & Hrows' & Htabs' & Hframe' & Hnode' & Hall).
  - intros c hk Hin Hext. apply IH; [exact Hin | lia | exact Hext].
  - reflexivity.
  - split; [lia|].
    intros q Hq. rewrite H2q by lia. apply Hext2, Hq.
  - lia.
  - exact H2r.
  - exact H2t.
  - exact H2q.
  - exact H2clone.
  - constructor. lia.
  - rewrite Hloop. exists h'. split; [reflexivity|].
    split; [lia|]. split; [exact Hrows'|]. split; [exact Htabs'|].
    split; [exact Hframe'|].
    econstructor; [lia | rewrite Hnode'; reflexivity | exact Hall].
Qed.

Lemma getBasePartitionName_ext (a b : BlockDevice) :
  Name a = Name b -> Type_ a = Type_ b ->
  getBasePartitionName a = getBasePartitionName b.
Proof. intros Hn Ht. unfold getBasePartitionName. rewrite Hn, Ht. reflexivity. Qed.

Lemma RemoveChild_loop_spec (h : Store) (dv1 : loc -> BlockDevice) (bd child : loc) :
  (bd < next h)%nat -> (child < next h)%nat ->
  forall lo hi parent cs cs',
    cloned_list (devs h) dv1 lo hi parent cs cs' ->
    forall hk,
      (next h <= lo)%nat ->
      (forall q, (lo <= q < hi)%nat -> devs hk q = dv1 q) ->
      Name (devs hk child) = Name (devs h child) ->
      Name (devs hk bd) = Name (devs h bd) ->
      Type_ (devs hk bd) = Type_ (devs h bd) ->
      let h' := RemoveChild_loop hk bd child cs' in
      exists acc',
        elems (Children (devs h' bd)) = elems (Children (devs hk bd)) ++ acc'
        /\ Forall2 (kept_as h h' bd)
             (filter (fun c => negb (Name (devs h c) =? Name (devs h child))%string) cs)
             acc'
        /\ (forall q, q <> bd -> q <> child -> ~ (lo <= q < hi)%nat ->
              devs h' q = devs hk q)
        /\ (Parent (devs hk child) = None -> Parent (devs h' child) = None)
        /\ (Exists (fun c => Name (devs h c) = Name (devs h child)) cs ->
            Parent (devs h' child) = None).
Proof.
  intros Hbd Hchild lo hi parent cs cs' Hl.
  induction Hl as [lo hi parent Hle|lo mid hi parent c c' cs cs' Hcl Hl IH];
    intros hk Hlo Hag Hnm Hbn Hbt; simpl.
  - exists []. rewrite app_nil_r. split; [reflexivity|]. split; [constructor|].
    split; [reflexivity|]. split; [auto|]. intros H. inversion H.
  - pose proof (cloned_range _ _ _ _ _ _ _ Hcl) as Hr1.
    pose proof (cloned_list_range _ _ _ _ _ _ _ Hl) as Hr2.
    inversion Hcl as [lo0 hi0 p0 c0 cl0 gs Hr0 Hn0 Hl0]; subst.
    assert (Hc' : devs hk c' = dv1 c') by (apply Hag; lia).
    assert (Hname : Name (devs hk c') = Name (devs h c)).
    { rewrite Hc', Hn0. reflexivity. }
    rewrite Hname, Hnm.
    destruct (Name (devs h c) =? Name (devs h child))%string eqn:En; simpl.
    + (* the child to remove: dropped *)
      set (hk1 := modify hk child (set_Parent None)).
      assert (H1q : forall q, q <> child -> devs hk1 q = devs hk q).
      { intros q Hq. subst hk1. unfold modify, store_dev, upd. simpl.
        destruct (Nat.eqb_spec q child); [contradiction | reflexivity]. }
      assert (H1c : devs hk1 child = set_Parent None (devs hk child)).
      { subst hk1. unfold modify, store_dev, upd. simpl.
        rewrite Nat.eqb_refl. reflexivity. }
      assert (H1bd : devs hk1 bd = devs hk bd \/ devs hk1 bd = set_Parent None (devs hk bd)).
      { destruct (Nat.eq_dec bd child) as [->|Hne]; [right; exact H1c | left; apply H1q, Hne]. }
      destruct (IH hk1) as (acc' & Hk & HF & Hframe & Hp1 & Hp2).
      * lia.
      * intros q Hq. rewrite H1q by lia. apply Hag. lia.
      * rewrite H1c. exact Hnm.
      * destruct H1bd as [->| ->]; exact Hbn.
      * destruct H1bd as [->| ->]; exact Hbt.
      * exists acc'.
        split; [rewrite Hk; destruct H1bd as [->| ->]; reflexivity|]. split; [exact HF|].
        split; [intros q Hq1 Hq2 Hq3; rewrite Hframe by (auto; lia); apply H1q, Hq2|].
        split; intros _; apply Hp1; rewrite H1c; reflexivity.
    + (* another child: renamed and attached again *)
      set (hk1 := modify hk c' (set_Name "")).
      assert (Hne : c' <> bd) by lia.
      assert (H1q : forall q, q <> c' -> devs hk1 q = devs hk q).
      { intros q Hq. subst hk1. unfold modify, store_dev, upd. simpl.
        destruct (Nat.eqb_spec q c'); [contradiction | reflexivity]. }
      assert (H1c : devs hk1 c' = set_Name "" (devs hk c')).
      { subst hk1. unfold modify, store_dev, upd. simpl.
        rewrite Nat.eqb_refl. reflexivity. }
      destruct (AddChild_spec hk1 bd c' Hne) as (Ad & Ac & Aq & Ar & At & An).
      set (hk2 := AddChild hk1 bd c') in *.
      rewrite (H1q bd) in Ad by lia. rewrite (H1q bd) in Ac by lia.
      rewrite H1c, Hc', Hn0 in Ac.
      assert (Hnew : devs hk2 c' =
                set_Name (rebuiltName (devs h bd) (devs h c))
                  (set_Parent (Some bd)
                     (set_Children (Some gs) (Clone_literal (devs h c))))).
      { rewrite Ac. unfold childName, rebuiltName. simpl.
        rewrite (getBasePartitionName_ext (devs hk bd) (devs h bd) Hbn Hbt).
        destruct (partition (devs h c) <? 1); reflexivity. }
      destruct (IH hk2) as (acc' & Hk & HF & Hframe & Hp1 & Hp2).
      * lia.
      * intros q Hq. rewrite Aq by lia. rewrite H1q by lia. apply Hag. lia.
      * destruct (Nat.eq_dec child bd) as [->|Hcb].
        -- rewrite Ad. exact Hnm.
        -- rewrite Aq by lia. rewrite H1q by lia. exact Hnm.
      * rewrite Ad. exact Hbn.
      * rewrite Ad. exact Hbt.
      * exists (c' :: acc'). rewrite Ad in Hk. simpl in Hk. rewrite <- app_assoc in Hk.
        split; [exact Hk|].
        split.
        { constructor; [|exact HF]. split; [lia|]. exists gs.
          rewrite Hframe by lia. exact Hnew. }
        split.
        { intros q Hq1 Hq2 Hq3. rewrite Hframe by (auto; lia).
          rewrite Aq by lia. apply H1q. lia. }
        assert (Hpc : Parent (devs hk2 child) = Parent (devs hk child)).
        { destruct (Nat.eq_dec child bd) as [->|Hcb].
          - rewrite Ad. reflexivity.
          - rewrite Aq by lia. rewrite H1q by lia. reflexivity. }
        split.
        { intros Hp. apply Hp1. rewrite Hpc. exact Hp. }
        intros Hex. inversion Hex as [x l Hx|x l Hx]; subst.
        { apply String.eqb_neq in En. contradiction. }
        apply Hp2. exact Hx.
Qed.

Lemma extends_refl h : extends h h.
Proof. split; [lia | reflexivity]. Qed.

(** C5 (as amended): on a tree, [RemoveChild] returns; afterwards the
    parent's children are new nodes, one for each original child whose name
    differs from the removed child's name, in the original order, each with
    the fields of [Clone]'s literal of that child, the parent as [Parent] and
    the name [AddChild] rebuilds; and when the removed child is one of the
    parent's children (or shares its name with one), its [Parent] is nil. *)
Theorem RemoveChild_spec (h : Store) (n : nat) (bd child : loc) (fuel : nat) :
  tree h n bd -> (n <= fuel)%nat -> (child < next h)%nat ->
  let children := elems (Children (devs h bd)) in
  exists h',
    RemoveChild fuel h bd child = Some h'
    /\ Forall2 (kept_as h h' bd)
         (filter (fun c => negb (Name (devs h c) =? Name (devs h child))%string) children)
         (elems (Children (devs h' bd)))
    /\ (Exists (fun c => Name (devs h c) = Name (devs h child)) children ->
        Parent (devs h' child) = None)
    /\ (In child children -> Parent (devs h' child) = None).
Proof.
  intros Ht Hfuel Hchild children.
  assert (Hbd : (bd < next h)%nat) by (inversion Ht; assumption).
  destruct (Clone_tree h n bd Ht fuel h Hfuel (extends_refl h))
    as (h1 & Hclone & Hn1 & Hrows1 & Htabs1 & Hframe1 & Hcl).
  unfold RemoveChild. rewrite Hclone.
  inversion Hcl as [lo0 hi0 p0 bd0 cl0 cs' Hr0 Hn0 Hl0]; subst lo0 hi0 p0 bd0 cl0.
  set (h2 := modify h1 bd (set_Children None)).
  assert (H2q : forall q, q <> bd -> devs h2 q = devs h1 q).
  { intros q Hq. subst h2. unfold modify, store_dev, upd. simpl.
    destruct (Nat.eqb_spec q bd); [contradiction | reflexivity]. }
  assert (H2bd : devs h2 bd = set_Children None (devs h bd)).
  { subst h2. unfold modify, store_dev, upd. simpl. rewrite Nat.eqb_refl.
    rewrite (Hframe1 bd Hbd). reflexivity. }
  rewrite (H2q (next h)) by lia. rewrite Hn0. simpl elems.
  destruct (RemoveChild_loop_spec h (devs h1) bd child Hbd Hchild
              (S (next h)) (next h1) (Some (next h)) children cs' Hl0 h2)
    as (acc' & Hk & HF & _ & _ & Hp).
  - lia.
  - intros q Hq. apply H2q. lia.
  - destruct (Nat.eq_dec child bd) as [->|Hne].
    + rewrite H2bd. reflexivity.
    + rewrite H2q by exact Hne. rewrite (Hframe1 child Hchild). reflexivity.
  - rewrite H2bd. reflexivity.
  - rewrite H2bd. reflexivity.
  - eexists. split; [reflexivity|].
    rewrite H2bd in Hk. simpl in Hk. rewrite Hk.
    split; [exact HF|]. split; [exact Hp|].
    intros Hin. apply Hp. apply Exists_exists. exists child. auto.
Qed.

(** C5, the claim as stated fails: after removing the partition named
    "sda?", the remaining partition (formerly "sda1") has been renamed, and
    its new name is "sda?". *)
Lemma RemoveChild_counterexample :
  ~ (forall (fuel : nat) (h : Store) (bd child : loc) (h' : Store),
       In child (elems (Children (devs h bd))) ->
       RemoveChild fuel h bd child = Some h' ->
       Forall (fun c' => Name (devs h' c') <> Name (devs h child))
         (elems (Children (devs h' bd)))).
Proof.
  intros H.
  destruct (RemoveChild 2 storeRemove 0 2) as [h'|] eqn:E; [|discriminate E].
  specialize (H 2%nat storeRemove 0%nat 2%nat h').
  assert (Hin : In 2%nat (elems (Children (devs storeRemove 0)))) by (right; left; reflexivity).
  specialize (H Hin E).
  vm_compute in E. injection E as <-.
  inversion H as [|x l Hx _]. apply Hx. reflexivity.
Qed.

Lemma RemoveChild_spec_witness :
  exists h',
    RemoveChild 2 storeRemove 0 1 = Some h'
    /\ List.length (elems (Children (devs h' 0))) = 1%nat
    /\ Parent (devs h' 1) = None.
Proof.
  assert (Ht : tree storeRemove 2 0).
  { constructor; [vm_compute; lia|]. intros c [<-|[<-|[]]];
      (constructor; [vm_compute; lia | intros c' []]). }
  assert (Hc : (1 < next storeRemove)%nat) by (vm_compute; lia).
  destruct (RemoveChild_spec storeRemove 2 0 1 2 Ht (le_n 2) Hc) as (h' & Hr & HF & _ & Hp).
  exists h'. split; [exact Hr|]. split.
  - apply Forall2_length in HF. rewrite <- HF. reflexivity.
  - apply Hp. left. reflexivity.
Defined.

(** [Clone] on a tree returns a copy in new nodes and leaves the old nodes,
    rows and tables as they were.  In the copy every node has the fields of
    [Clone_literal] of its original: all of them but [PtType] and [Options],
    which are empty, and [Children], which holds the copies; the children
    point back to their copied parent, and [PartTable] and [removedParts]
    are the original's slices. *)
Theorem Clone_copies (h : Store) (n : nat) (bd : loc) (fuel : nat) :
  tree h n bd -> (n <= fuel)%nat ->
  exists h' clone,
    Clone fuel h bd = Some (h', clone)
    /\ clone = next h
    /\ (forall q, (q < next h)%nat -> devs h' q = devs h q)
    /\ rows h' = rows h /\ tables h' = tables h
    /\ cloned (devs h) (devs h') (next h) (next h') (Parent (devs h bd)) bd clone
    /\ (forall b, PartTable (Clone_literal b) = PartTable b
                  /\ removedParts (Clone_literal b) = removedParts b
                  /\ PtType (Clone_literal b) = "" /\ Options (Clone_literal b) = "").
Proof.
  intros Ht Hfuel.
  destruct (Clone_tree h n bd Ht fuel h Hfuel (extends_refl h))
    as (h1 & Hclone & Hn1 & Hrows1 & Htabs1 & Hframe1 & Hcl).
  exists h1, (next h). repeat split; auto.
Qed.

Lemma Clone_copies_witness :
  exists h' clone,
    Clone 2 storeClone 0 = Some (h', clone)
    /\ (forall q, (q < next storeClone)%nat -> devs h' q = devs storeClone q).
Proof.
  assert (Ht : tree storeClone 2 0).
  { constructor; [vm_compute; lia|]. intros c [<-|[]].
    constructor; [vm_compute; lia | intros c' []]. }
  destruct (Clone_copies storeClone 2 0 2 Ht (le_n 2))
    as (h' & clone & Hc & _ & Hf & _).
  exists h', clone. split; [exact Hc | exact Hf].
Defined.

(** C4, where the code departs from the claim: the copy of a GPT disk has an
    empty [PtType], and the copy of its partition has lost the mkfs
    [Options]; the other fields are the original's. *)
Lemma Clone_loses_PtType_and_Options :
  exists h' clone child',
    Clone 2 storeClone 0 = Some (h', clone)
    /\ Children (devs h' clone) = Some [child']
    /\ PtType (devs storeClone 0) = "gpt" /\ PtType (devs h' clone) = ""
    /\ Options (devs storeClone 1) = "-O ^has_journal"
    /\ Options (devs h' child') = ""
    /\ Name (devs h' child') = "sda1" /\ Parent (devs h' child') = Some clone.
Proof.
  eexists. exists 2%nat, 3%nat. split; [vm_compute; reflexivity|].
  repeat split.
Qed.

(** ** float64: integers are exact *)

Lemma round_div_1 x : round_div x 1 = x.
Proof.
  unfold round_div. rewrite Z.div_1_r, Z.mod_1_r. reflexivity.
Qed.

Lemma round_div_exact q d : (0 < d)%Z -> round_div (q * d) d = q.
Proof.
  intros Hd. unfold round_div.
  rewrite Z.div_mul by lia. rewrite Z.mod_mul by lia.
  destruct (2 * 0 <? d)%Z eqn:E; [reflexivity|].
  apply Z.ltb_ge in E. lia.
Qed.

Lemma round_rat_int n :
  (0 <= n < 2 ^ 53)%Z -> is_int (round_rat n 1) n.
Proof.
  intros [H0 H53]. unfold round_rat.
  destruct (n =? 0)%Z eqn:En.
  - apply Z.eqb_eq in En. subst n. exists 0%Z. split; [lia | reflexivity].
  - apply Z.eqb_neq in En.
    assert (Hpos : (0 < n)%Z) by lia.
    pose proof (Z.log2_spec n Hpos) as [Hl1 Hl2].
    pose proof (Z.log2_nonneg n) as Hl0.
    assert (Hl52 : (Z.log2 n <= 52)%Z).
    { apply Z.lt_succ_r. apply (Z.log2_lt_pow2 n 53); lia. }
    change (Z.log2 1) with 0%Z. rewrite Z.sub_0_r.
    replace (0 <=? Z.log2 n)%Z with true by (symmetry; apply Z.leb_le; lia).
    replace (1 * 2 ^ Z.log2 n <=? n)%Z with true by (symmetry; apply Z.leb_le; lia).
    cbv zeta.
    rewrite Z.max_l by lia.
    exists (52 - Z.log2 n)%Z. split; [lia|].
    destruct (0 <=? Z.log2 n - 52)%Z eqn:E0.
    + apply Z.leb_le in E0. assert (El : Z.log2 n = 52%Z) by lia.
      rewrite El. change (52 - 52)%Z with 0%Z. change (1 * 2 ^ 0)%Z with 1%Z.
      rewrite round_div_1. unfold overflow.
      replace (2 ^ 1024 <=? n * 2 ^ 0)%Z with false.
      * rewrite andb_false_r. change (2 ^ 0)%Z with 1%Z. rewrite Z.mul_1_r. reflexivity.
      * symmetry. apply Z.leb_gt. change (2 ^ 0)%Z with 1%Z.
        assert (2 ^ 53 < 2 ^ 1024)%Z by (apply Z.pow_lt_mono_r; lia). lia.
    + rewrite round_div_1. unfold overflow. rewrite E0. simpl andb. cbv iota.
      f_equal; [f_equal; f_equal; lia | lia].
Qed.

Lemma fmul_int f z s :
  is_int f z -> (0 <= z)%Z -> (0 < s)%Z -> (z * s < 2 ^ 53)%Z ->
  is_int (fmul f (Finite s 0)) (z * s).
Proof.
  intros (c & Hc & ->) Hz Hs Hlt. unfold fmul, round_dyadic.
  rewrite Z.add_0_r.
  replace (z * 2 ^ c * s)%Z with (z * s * 2 ^ c)%Z by ring.
  destruct (Z.eq_dec (z * s) 0) as [E0|E0].
  - rewrite E0. simpl Z.mul. change (Z.log2 0 + 1 <=? 53)%Z with true. cbv iota.
    exists c. split; [lia|]. rewrite Z.mul_0_l. reflexivity.
  - assert (Hpos : (0 < z * s)%Z) by lia.
    assert (Hl52 : (Z.log2 (z * s) <= 52)%Z).
    { apply Z.lt_succ_r. apply (Z.log2_lt_pow2 (z * s) 53); lia. }
    pose proof (Z.log2_nonneg (z * s)) as Hl0.
    rewrite (Z.log2_mul_pow2 (z * s) c Hpos Hc).
    destruct (c + Z.log2 (z * s) + 1 <=? 53)%Z eqn:Eb.
    + exists c. split; [lia | reflexivity].
    + apply Z.leb_gt in Eb. cbv zeta.
      set (k := (c + Z.log2 (z * s) + 1 - 53)%Z).
      assert (Hk : (0 < k <= c)%Z) by (subst k; lia).
      replace (z * s * 2 ^ c)%Z with (z * s * 2 ^ (c - k) * 2 ^ k)%Z.
      2:{ rewrite <- Z.mul_assoc, <- Z.pow_add_r by lia. do 2 f_equal. lia. }
      rewrite round_div_exact by (apply Z.pow_pos_nonneg; lia).
      exists (c - k)%Z. split; [lia|].
      unfold overflow.
      destruct (0 <=? - c + k)%Z eqn:E0'.
      * apply Z.leb_le in E0'. assert (Eck : (c - k = 0)%Z) by lia.
        rewrite Eck. change (2 ^ 0)%Z with 1%Z. rewrite Z.mul_1_r.
        replace (- c + k)%Z with 0%Z by lia. change (2 ^ 0)%Z with 1%Z.
        rewrite Z.mul_1_r.
        replace (2 ^ 1024 <=? z * s)%Z with false; [reflexivity|].
        symmetry. apply Z.leb_gt.
        assert (2 ^ 53 < 2 ^ 1024)%Z by (apply Z.pow_lt_mono_r; lia). lia.
      * simpl andb. cbv iota. f_equal. lia.
Qed.

Lemma Round_int f z : is_int f z -> Round f = Some z.
Proof.
  intros (c & Hc & ->). unfold Round.
  destruct (0 <=? - c)%Z eqn:E.
  - apply Z.leb_le in E. assert (c = 0%Z) by lia. subst c.
    change (- 0)%Z with 0%Z. change (2 ^ 0)%Z with 1%Z. rewrite !Z.mul_1_r. reflexivity.
  - apply Z.leb_gt in E. f_equal.
    replace (- - c - 1)%Z with (c - 1)%Z by lia. rewrite Z.opp_involutive.
    assert (Hp : (0 < 2 ^ c)%Z) by (apply Z.pow_pos_nonneg; lia).
    rewrite Z.div_add_l by lia.
    rewrite Z.div_small; [lia|].
    split; [apply Z.pow_nonneg; lia|]. apply Z.pow_lt_mono_r; lia.
Qed.

Lemma uint64_of_Round_int f z :
  is_int f z -> (0 <= z < 2 ^ 53)%Z -> uint64_of_Round f = Some (Z.to_N z).
Proof.
  intros Hf [H0 H53]. unfold uint64_of_Round. rewrite (Round_int f z Hf).
  replace (z <? 2 ^ 64)%Z with true; [reflexivity|].
  symmetry. apply Z.ltb_lt.
  assert (2 ^ 53 < 2 ^ 64)%Z by (apply Z.pow_lt_mono_r; lia). lia.
Qed.

(** ** float64: the model agrees with IEEE 754 binary64 *)

(** Quotients of integers, among them ties, subnormal results and
    overflow, against [SFdiv]. *)
Example round_rat_is_SFdiv :
  forallb (fun p => same_float (round_rat (fst p) (snd p))
                      (SFdiv 53 1024 (S754_finite false (Z.to_pos (fst p)) 0)
                                     (S754_finite false (Z.to_pos (snd p)) 0)))
    [(1, 10); (15, 10); (1, 3); (2, 3); (9007199254740993, 1); (9007199254740995, 1);
     (18446744073709551615, 1); (1500000000, 1000000000); (999999, 1000);
     (999999999999999, 1000000000000000); (48828124999999999999999999, 10 ^ 29);
     (1, 10 ^ 320); (3, 10 ^ 324); (10 ^ 400, 3); (2 ^ 1024 - 2 ^ 970, 1);
     (2 ^ 1024 - 2 ^ 970 - 1, 1)]%Z = true.
Proof. vm_compute. reflexivity. Qed.

(** Products with a scale, against [SFmul]. *)
Example fmul_is_SFmul :
  forallb (fun p => let x := round_rat (fst (fst p)) (snd (fst p)) in
                    let y := Finite (snd p) 0 in
                    same_float (fmul x y) (SFmul 53 1024 (to_spec_float x) (to_spec_float y)))
    [(1, 10, 2 ^ 10); (15, 10, 2 ^ 30); (1, 3, 10 ^ 9); (10005, 10000, 1000);
     (123456789, 1000, 10 ^ 15); (2, 3, 2 ^ 50); (10 ^ 300, 7, 10 ^ 15)]%Z = true.
Proof. vm_compute. reflexivity. Qed.

(** ** float64: comparing a quotient with 1 *)

Lemma round_div_bounds num den :
  (0 < den)%Z -> (num / den <= round_div num den <= num / den + 1)%Z.
Proof.
  intros Hd. unfold round_div.
  destruct (2 * (num mod den) <? den)%Z; [lia|].
  destruct (den <? 2 * (num mod den))%Z; [lia|].
  destruct (Z.even (num / den)); lia.
Qed.

(** The exponent [round_rat] computes for [num / den] is its binary
    logarithm, rounded down. *)
Lemma round_rat_log num den :
  (0 < num)%Z -> (0 < den)%Z ->
  let l := (Z.log2 num - Z.log2 den)%Z in
  let lg :=
    if (0 <=? l)%Z
    then (if den * 2 ^ l <=? num then l else l - 1)%Z
    else (if den <=? num * 2 ^ (- l) then l else l - 1)%Z in
  (den <= num -> 0 <= lg /\ den * 2 ^ lg <= num)%Z
  /\ (num < den -> lg <= -1)%Z.
Proof.
  intros Hn Hd l lg.
  pose proof (Z.log2_spec num Hn) as [Hn1 Hn2].
  pose proof (Z.log2_spec den Hd) as [Hd1 Hd2].
  pose proof (Z.log2_nonneg num) as Hn0.
  pose proof (Z.log2_nonneg den) as Hd0.
  split.
  - intros Hle.
    assert (Hl : (0 <= l)%Z) by (subst l; pose proof (Z.log2_le_mono den num Hle); lia).
    subst lg. replace (0 <=? l)%Z with true by (symmetry; apply Z.leb_le; exact Hl).
    destruct (den * 2 ^ l <=? num)%Z eqn:E.
    + apply Z.leb_le in E. split; assumption.
    + apply Z.leb_gt in E.
      assert (Hl1 : (1 <= l)%Z).
      { destruct (Z.eq_dec l 0) as [E0|E0]; [|lia].
        rewrite E0 in E. change (2 ^ 0)%Z with 1%Z in E. lia. }
      split; [lia|].
      apply Z.le_trans with (2 ^ Z.log2 num)%Z; [|exact Hn1].
      replace (Z.log2 num) with (Z.succ (Z.log2 den) + (l - 1))%Z by (subst l; lia).
      rewrite Z.pow_add_r by lia.
      apply Z.mul_le_mono_nonneg_r; [apply Z.pow_nonneg; lia | lia].
  - intros Hlt. subst lg.
    destruct (0 <=? l)%Z eqn:El.
    + apply Z.leb_le in El.
      assert (l = 0%Z).
      { subst l. pose proof (Z.log2_le_mono num den ltac:(lia)). lia. }
      replace (den * 2 ^ l <=? num)%Z with false; [lia|].
      symmetry. apply Z.leb_gt. rewrite H. change (2 ^ 0)%Z with 1%Z. lia.
    + apply Z.leb_gt in El. destruct (den <=? num * 2 ^ (- l))%Z; lia.
Qed.

Lemma round_rat_ge_1 num den :
  (0 < den <= num)%Z -> fltb (round_rat num den) (Finite 1 0) = false.
Proof.
  intros [Hd Hle]. assert (Hn : (0 < num)%Z) by lia.
  unfold round_rat.
  replace (num =? 0)%Z with false by (symmetry; apply Z.eqb_neq; lia).
  destruct (round_rat_log num den Hn Hd) as [Hge _]. cbv zeta in Hge.
  destruct (Hge Hle) as [Hlg0 Hlg]. clear Hge.
  set (lg := if (0 <=? Z.log2 num - Z.log2 den)%Z then _ else _) in *.
  cbv zeta. rewrite Z.max_l by lia.
  destruct (0 <=? lg - 52)%Z eqn:Ee.
  - apply Z.leb_le in Ee.
    assert (Hp : (0 < den * 2 ^ (lg - 52))%Z).
    { apply Z.mul_pos_pos; [exact Hd | apply Z.pow_pos_nonneg; lia]. }
    pose proof (round_div_bounds num (den * 2 ^ (lg - 52)) Hp) as [Hb _].
    assert (Hq : (1 <= num / (den * 2 ^ (lg - 52)))%Z).
    { apply Z.div_le_lower_bound; [exact Hp|]. rewrite Z.mul_1_r.
      apply Z.le_trans with (den * 2 ^ lg)%Z; [|exact Hlg].
      apply Z.mul_le_mono_nonneg_l; [lia|]. apply Z.pow_le_mono_r; lia. }
    unfold overflow.
    destruct ((0 <=? lg - 52) && (2 ^ 1024 <=? _))%Z; [reflexivity|].
    unfold fltb. rewrite Z.min_r by lia.
    apply Z.ltb_ge. rewrite !Z.sub_0_r. change (1 * 2 ^ 0)%Z with 1%Z.
    assert (0 < 2 ^ (lg - 52))%Z by (apply Z.pow_pos_nonneg; lia). nia.
  - apply Z.leb_gt in Ee.
    assert (Hp : (0 < 2 ^ (- (lg - 52)))%Z) by (apply Z.pow_pos_nonneg; lia).
    pose proof (round_div_bounds (num * 2 ^ (- (lg - 52))) den Hd) as [Hb _].
    assert (Hq : (2 ^ (- (lg - 52)) <= num * 2 ^ (- (lg - 52)) / den)%Z).
    { apply Z.div_le_lower_bound; [exact Hd|]. nia. }
    unfold overflow.
    replace (0 <=? lg - 52)%Z with false by (symmetry; apply Z.leb_gt; lia).
    simpl andb. cbv iota.
    unfold fltb. rewrite Z.min_l by lia.
    apply Z.ltb_ge. rewrite Z.sub_diag. change (2 ^ 0)%Z with 1%Z.
    rewrite Z.mul_1_r, Z.mul_1_l. rewrite Z.sub_0_l. lia.
Qed.

Lemma round_rat_lt_1 num den :
  (0 < num < den)%Z -> (den <= 2 ^ 52)%Z ->
  fltb (round_rat num den) (Finite 1 0) = true.
Proof.
  intros [Hn Hlt] H52. assert (Hd : (0 < den)%Z) by lia.
  unfold round_rat.
  replace (num =? 0)%Z with false by (symmetry; apply Z.eqb_neq; lia).
  destruct (round_rat_log num den Hn Hd) as [_ Hl]. cbv zeta in Hl.
  specialize (Hl Hlt).
  set (lg := if (0 <=? Z.log2 num - Z.log2 den)%Z then _ else _) in *.
  cbv zeta.
  set (e := Z.max (lg - 52) (-1074)).
  assert (He : (e <= -53)%Z) by (subst e; lia).
  replace (0 <=? e)%Z with false by (symmetry; apply Z.leb_gt; lia).
  unfold overflow.
  replace (0 <=? e)%Z with false by (symmetry; apply Z.leb_gt; lia).
  simpl andb. cbv iota. unfold fltb. rewrite Z.min_l by lia.
  apply Z.ltb_lt. rewrite Z.sub_diag. change (2 ^ 0)%Z with 1%Z.
  replace (0 - e)%Z with (- e)%Z by lia.
  set (P := (2 ^ (- e))%Z).
  assert (HP : (2 ^ 53 <= P)%Z) by (subst P; apply Z.pow_le_mono_r; lia).
  assert (H2 : (2 * 2 ^ 52 = 2 ^ 53)%Z) by reflexivity.
  pose proof (round_div_bounds (num * P) den Hd) as [_ Hb].
  assert (Hq : (num * P / den <= P - 2)%Z).
  { apply Z.div_le_upper_bound; [exact Hd|]. nia. }
  lia.
Qed.

(** [float64(n)] of a 64-bit [n]: exact below 2^53, and otherwise a
    finite value of at least 2^53. *)
Lemma float64_of_uint_shape n :
  0 < n < two64 ->
  exists m e, float64_of_uint n = Finite m e /\ (0 <= e)%Z /\ (0 < m)%Z
    /\ (Z.of_N n < 2 ^ 53 -> m = Z.of_N n /\ e = 0)%Z
    /\ (2 ^ 53 <= Z.of_N n -> 2 ^ 53 <= m * 2 ^ e)%Z.
Proof.
  intros [Hpos Hlt]. unfold two64 in Hlt.
  set (z := Z.of_N n).
  assert (Hz : (0 < z < 2 ^ 64)%Z) by (subst z; change (2 ^ 64)%Z with (Z.of_N (2 ^ 64)); lia).
  unfold float64_of_uint, round_dyadic. fold z.
  pose proof (Z.log2_spec z (proj1 Hz)) as [Hl1 Hl2].
  pose proof (Z.log2_nonneg z) as Hl0.
  cbv zeta.
  destruct (Z.log2 z + 1 <=? 53)%Z eqn:Eb.
  - apply Z.leb_le in Eb. exists z, 0%Z.
    split; [reflexivity|]. split; [lia|]. split; [lia|]. split; [intros _; split; reflexivity|].
    intros Hge. exfalso.
    assert (2 ^ Z.succ (Z.log2 z) <= 2 ^ 53)%Z by (apply Z.pow_le_mono_r; lia). lia.
  - apply Z.leb_gt in Eb.
    set (k := (Z.log2 z + 1 - 53)%Z).
    assert (Hk : (1 <= k)%Z) by (subst k; lia).
    assert (Hl64 : (Z.log2 z < 64)%Z) by (apply Z.log2_lt_pow2; lia).
    assert (Hk11 : (k <= 11)%Z) by (subst k; lia).
    assert (Hpk : (0 < 2 ^ k)%Z) by (apply Z.pow_pos_nonneg; lia).
    pose proof (round_div_bounds z (2 ^ k) Hpk) as [Hb1 Hb2].
    assert (Hq : (2 ^ 52 <= z / 2 ^ k)%Z).
    { apply Z.div_le_lower_bound; [exact Hpk|]. rewrite Z.mul_comm, <- Z.pow_add_r by lia.
      replace (52 + k)%Z with (Z.log2 z) by (subst k; lia). exact Hl1. }
    assert (Hq2 : (2 ^ k * (z / 2 ^ k) <= z)%Z) by (apply Z.mul_div_le; exact Hpk).
    assert (Hk2 : (2 ^ k <= 2 ^ 11)%Z) by (apply Z.pow_le_mono_r; lia).
    exists (round_div z (2 ^ k)), (0 + k)%Z.
    split.
    + unfold overflow.
      replace (2 ^ 1024 <=? round_div z (2 ^ k) * 2 ^ (0 + k))%Z with false;
        [rewrite andb_false_r; reflexivity|].
      symmetry. apply Z.leb_gt. rewrite Z.add_0_l.
      apply Z.le_lt_trans with (z + 2 ^ k)%Z; [nia|].
      apply Z.lt_trans with (2 ^ 65)%Z; [|reflexivity].
      change (2 ^ 65)%Z with (2 ^ 64 + 2 ^ 64)%Z.
      assert (2 ^ 11 < 2 ^ 64)%Z by reflexivity. lia.
    + split; [lia|]. split; [pose proof (Z.pow_pos_nonneg 2 52); lia|].
      split.
      * intros Hlt53. exfalso.
        assert (2 ^ 53 <= 2 ^ Z.log2 z)%Z by (apply Z.pow_le_mono_r; lia). lia.
      * intros _. rewrite Z.add_0_l.
        change (2 ^ 53)%Z with (2 ^ 52 * 2 ^ 1)%Z.
        assert (2 ^ 1 <= 2 ^ k)%Z by (apply Z.pow_le_mono_r; lia).
        apply Z.mul_le_mono_nonneg; lia.
Qed.

(** A size scaled by a mask of at most 2^52 is below 1 exactly when the
    size is below the mask: the rounding of the conversion and of the
    division never crosses 1. *)
Lemma scaled_below_one size M :
  0 < size < two64 -> (0 < M <= 2 ^ 52)%Z ->
  fltb (fdiv (float64_of_uint size) (Finite M 0)) (Finite 1 0) = (Z.of_N size <? M)%Z.
Proof.
  intros Hs [HM0 HM].
  destruct (float64_of_uint_shape size Hs) as (m & e & -> & He & Hm & Hsmall & Hbig).
  unfold fdiv. cbv zeta. rewrite Z.sub_0_r.
  replace (0 <=? e)%Z with true by (symmetry; apply Z.leb_le; exact He).
  assert (H5253 : (2 ^ 52 < 2 ^ 53)%Z) by reflexivity.
  destruct (Z.lt_ge_cases (Z.of_N size) (2 ^ 53)) as [Hc|Hc].
  - destruct (Hsmall Hc) as [-> ->]. change (2 ^ 0)%Z with 1%Z. rewrite Z.mul_1_r.
    destruct (Z.of_N size <? M)%Z eqn:E.
    + apply Z.ltb_lt in E. apply round_rat_lt_1; lia.
    + apply Z.ltb_ge in E. apply round_rat_ge_1; lia.
  - specialize (Hbig Hc).
    replace (Z.of_N size <? M)%Z with false by (symmetry; apply Z.ltb_ge; lia).
    apply round_rat_ge_1; lia.
Qed.

(** ** Strings of digits *)

Lemma append_empty_r (s : string) : (s ++ "")%string = s.
Proof. induction s as [|c s IH]; simpl; [reflexivity | rewrite IH; reflexivity]. Qed.

Lemma is_digit_lower c : is_digit c = true -> lower_ascii c = c.
Proof.
  unfold is_digit, lower_ascii. intros H.
  apply andb_true_iff in H. destruct H as [H1 H2].
  apply N.leb_le in H1, H2.
  destruct (65 <=? N_of_ascii c) eqn:E; [|reflexivity].
  apply N.leb_le in E. lia.
Qed.

Lemma ToLower_app a b : ToLower (a ++ b) = (ToLower a ++ ToLower b)%string.
Proof. induction a as [|c a IH]; simpl; [reflexivity | rewrite IH; reflexivity]. Qed.

Lemma ToLower_digits ds : all_digits ds = true -> ToLower ds = ds.
Proof.
  induction ds as [|c ds IH]; simpl; [reflexivity|].
  intros H. apply andb_true_iff in H. destruct H as [Hc Hds].
  rewrite (is_digit_lower c Hc), (IH Hds). reflexivity.
Qed.

(** The digits of [ds] are spanned whole when what follows is no digit. *)
Lemma span_digits_app ds r :
  all_digits ds = true ->
  match r with
  | EmptyString => True
  | String c _ => is_digit c = false
  end ->
  span_digits (ds ++ r) = (ds, r).
Proof.
  intros Hds Hr. induction ds as [|c ds IH]; simpl.
  - destruct r as [|c r]; [reflexivity|]. simpl. rewrite Hr. reflexivity.
  - simpl in Hds. apply andb_true_iff in Hds. destruct Hds as [Hc Hds].
    rewrite Hc, (IH Hds). reflexivity.
Qed.

Lemma digits_value_from_nonneg s : forall acc, (0 <= acc)%Z -> all_digits s = true ->
  (0 <= digits_value_from acc s)%Z.
Proof.
  induction s as [|c s IH]; intros acc Hacc Hd; cbn [digits_value_from]; [exact Hacc|].
  simpl in Hd. apply andb_true_iff in Hd. destruct Hd as [Hc Hs].
  apply IH; [|exact Hs].
  unfold is_digit in Hc. apply andb_true_iff in Hc. destruct Hc as [H1 H2].
  apply N.leb_le in H1, H2. lia.
Qed.

Lemma digits_value_nonneg s : all_digits s = true -> (0 <= digits_value s)%Z.
Proof. apply digits_value_from_nonneg. lia. Qed.

Lemma ParseFloat_digits ds :
  all_digits ds = true -> ds <> "" ->
  (digits_value ds < 2 ^ 53)%Z ->
  exists f, ParseFloat ds = Some f /\ is_int f (digits_value ds).
Proof.
  intros Hds Hne Hlt. unfold ParseFloat.
  pose proof (span_digits_app ds "" Hds I) as Hs. rewrite append_empty_r in Hs.
  rewrite Hs. simpl span_digits. cbv iota beta.
  rewrite append_empty_r. simpl String.length. rewrite Nat.add_0_r.
  destruct ds as [|c ds]; [congruence|]. simpl String.length.
  change (S (String.length ds) =? 0)%nat with false. cbv iota.
  change (10 ^ Z.of_nat 0)%Z with 1%Z.
  pose proof (round_rat_int (digits_value (String c ds))
                (conj (digits_value_nonneg _ Hds) Hlt)) as Hint.
  destruct Hint as (k & Hk & Hf). rewrite Hf.
  eexists. split; [reflexivity|]. exists k. split; [exact Hk | reflexivity].
Qed.

Lemma storageExp_digits ds l :
  all_digits ds = true ->
  l = "" \/ (exists c, l = String c "" /\ is_unit c = true /\ is_digit c = false
                       /\ Ascii.eqb c "." = false) ->
  storageExp (ds ++ l) = Some (ds, l).
Proof.
  intros Hds Hl. unfold storageExp.
  destruct Hl as [->|(c & -> & Hu & Hd & Hdot)].
  - rewrite (span_digits_app ds "" Hds I). simpl. rewrite !append_empty_r. reflexivity.
  - rewrite (span_digits_app ds (String c "") Hds Hd).
    assert (Hm : match String c "" with
                 | String "."%char r => (".", r)
                 | _ => ("", String c "")
                 end = ("", String c "")).
    { destruct c as [[] [] [] [] [] [] [] []]; try reflexivity; discriminate Hdot. }
    rewrite Hm. simpl span_digits. rewrite Hd. rewrite Hu.
    simpl. rewrite !append_empty_r. reflexivity.
Qed.

(** An integer with a unit: the float computation is exact below 2^53. *)
Lemma parseVolume_int (scale : string -> option Z) ds u s :
  all_digits ds = true -> ds <> "" ->
  storageExp (ds ++ ToLower u) = Some (ds, ToLower u) ->
  (scale (ToLower u) = Some s /\ (0 < s)%Z) \/ (scale (ToLower u) = None /\ s = 1%Z) ->
  (digits_value ds * s < 2 ^ 53)%Z ->
  parseVolume scale (ds ++ u) = Some (Ok (Z.to_N (digits_value ds * s))).
Proof.
  intros Hds Hne Hexp Hscale Hlt. unfold parseVolume.
  rewrite ToLower_app, (ToLower_digits ds Hds), Hexp.
  pose proof (digits_value_nonneg ds Hds) as Hn0.
  assert (Hn : (digits_value ds < 2 ^ 53)%Z).
  { destruct Hscale as [[_ Hs]|[_ ->]]; [|lia].
    apply Z.le_lt_trans with (digits_value ds * s)%Z; [|exact Hlt].
    rewrite <- (Z.mul_1_r (digits_value ds)) at 1.
    apply Z.mul_le_mono_nonneg_l; lia. }
  destruct (ParseFloat_digits ds Hds Hne Hn) as (f & Hf & Hint).
  rewrite Hf.
  destruct Hscale as [[-> Hs]|[-> ->]].
  - rewrite (uint64_of_Round_int _ (digits_value ds * s)); [reflexivity | |].
    + apply fmul_int; assumption.
    + split; [apply Z.mul_nonneg_nonneg; lia | exact Hlt].
  - rewrite Z.mul_1_r in *.
    rewrite (uint64_of_Round_int _ (digits_value ds) Hint); [reflexivity|].
    split; assumption.
Qed.

Ltac unit_case :=
  apply storageExp_digits; [assumption|];
  first [ left; reflexivity
        | right; eexists; split; [reflexivity|]; repeat split; reflexivity ].

(** C7 (as amended): for a string of digits [ds] followed by a unit (in
    either case, or none), [ParseVolumeSize] returns the number times
    1024^k, and [ParseVolumeHumanSize] the number times 1000^k, whenever that
    product is below 2^53, so that [float64] holds it exactly.  In general
    the result is that of the [float64] computation: the number rounded to
    the nearest [float64], times the scale, rounded to the nearest integer.
    A string that does not match the pattern goes to [ParseUint] (base 0)
    after lowercasing; a matching string whose numeric part has no digit, or
    overflows [float64], is an error. *)
Theorem ParseVolumeSize_spec :
  (forall ds u k,
      all_digits ds = true -> ds <> "" -> unit_power u = Some k ->
      ((digits_value ds * 1024 ^ k < 2 ^ 53)%Z ->
       ParseVolumeSize (ds ++ u) = Some (Ok (Z.to_N (digits_value ds * 1024 ^ k))))
      /\ ((digits_value ds * 1000 ^ k < 2 ^ 53)%Z ->
          ParseVolumeHumanSize (ds ++ u)
          = Some (Ok (Z.to_N (digits_value ds * 1000 ^ k)))))
  /\ (forall s number unit f,
        storageExp (ToLower s) = Some (number, unit) ->
        ParseFloat number = Some f ->
        ParseVolumeSize s =
          option_map Ok (uint64_of_Round
                           match binary_scale unit with
                           | Some k => fmul f (Finite k 0)
                           | None => f
                           end)
        /\ ParseVolumeHumanSize s =
          option_map Ok (uint64_of_Round
                           match decimal_scale unit with
                           | Some k => fmul f (Finite k 0)
                           | None => f
                           end))
  /\ (forall s,
        storageExp (ToLower s) = None ->
        ParseVolumeSize s = Some (ParseUint (ToLower s))
        /\ ParseVolumeHumanSize s = Some (ParseUint (ToLower s)))
  /\ (forall s number unit,
        storageExp (ToLower s) = Some (number, unit) ->
        ParseFloat number = None ->
        ParseVolumeSize s = Some (Err ErrParseFloat)
        /\ ParseVolumeHumanSize s = Some (Err ErrParseFloat)).
Proof.
  split; [|split; [|split]].
  - intros ds u k Hds Hne Hu. unfold unit_power in Hu.
    unfold ParseVolumeSize, ParseVolumeHumanSize.
    destruct (String.eqb_spec (ToLower u) "") as [El|_];
      [|destruct (String.eqb_spec (ToLower u) "b") as [El|_];
        [|destruct (String.eqb_spec (ToLower u) "k") as [El|_];
          [|destruct (String.eqb_spec (ToLower u) "m") as [El|_];
            [|destruct (String.eqb_spec (ToLower u) "g") as [El|_];
              [|destruct (String.eqb_spec (ToLower u) "t") as [El|_];
                [|destruct (String.eqb_spec (ToLower u) "p") as [El|_];
                  [|discriminate Hu]]]]]]];
      injection Hu as <-;
      (split; intros Hlt;
       (apply parseVolume_int;
        [ assumption | assumption
        | rewrite El; unit_case
        | rewrite El; first [ left; split; [reflexivity | reflexivity]
                            | right; split; reflexivity ]
        | exact Hlt ])).
  - intros s number unit f He Hf.
    unfold ParseVolumeSize, ParseVolumeHumanSize, parseVolume. rewrite He, Hf.
    split; [destruct (binary_scale unit) | destruct (decimal_scale unit)];
      match goal with |- context [uint64_of_Round ?x] => destruct (uint64_of_Round x) end;
      reflexivity.
  - intros s He. unfold ParseVolumeSize, ParseVolumeHumanSize, parseVolume.
    rewrite He. split; reflexivity.
  - intros s number unit He Hf.
    unfold ParseVolumeSize, ParseVolumeHumanSize, parseVolume. rewrite He, Hf.
    split; reflexivity.
Qed.

(** C7, the claim as stated fails: [float64] has 53 bits, so the last digit
    of 9007199254740993 (2^53 + 1) is lost. *)
Lemma ParseVolumeSize_counterexample :
  ~ (forall ds : string,
       all_digits ds = true -> ds <> "" ->
       ParseVolumeSize ds = Some (Ok (Z.to_N (digits_value ds)))).
Proof.
  intros H. specialize (H "9007199254740993" eq_refl).
  assert (Hv : ParseVolumeSize "9007199254740993" = Some (Ok 9007199254740992))
    by (vm_compute; reflexivity).
  rewrite Hv in H. specialize (H ltac:(discriminate)).
  vm_compute in H. discriminate H.
Qed.

Lemma ParseVolumeSize_spec_witness :
  ParseVolumeSize "10M" = Some (Ok 10485760)
  /\ ParseVolumeHumanSize "150M" = Some (Ok 150000000).
Proof.
  destruct ParseVolumeSize_spec as [Hint _].
  split.
  - apply (Hint "10" "M" 2%Z eq_refl ltac:(discriminate) eq_refl). reflexivity.
  - apply (Hint "150" "M" 2%Z eq_refl ltac:(discriminate) eq_refl). reflexivity.
Defined.

(** Fractions go through the same computation. *)
Example ParseVolumeSize_fractions :
  ParseVolumeSize "1.5G" = Some (Ok 1610612736)
  /\ ParseVolumeSize "0.1k" = Some (Ok 102)
  /\ ParseVolumeSize ".5" = Some (Ok 1)
  /\ ParseVolumeHumanSize "1.5g" = Some (Ok 1500000000)
  /\ ParseVolumeSize "k" = Some (Err ErrParseFloat)
  /\ ParseVolumeSize "0x10" = Some (Ok 16)
  /\ ParseVolumeSize "10MB" = Some (Err ErrParseUint).
Proof. vm_compute. repeat split. Qed.

(** ** HumanReadableSizeWithUnitAndPrecision *)

(** Without a requested unit the loop stops at the first row whose scaled
    value is not below 1. *)
Lemma HumanReadableSize_loop_auto value precision table :
  HumanReadableSize_loop value "" precision table =
  match find (fun curr => negb (fltb (fdiv value (mask curr)) (Finite 1 0))) table with
  | Some curr => Ok (render (fdiv value (mask curr)) precision curr)
  | None => Err ErrFormatSize
  end.
Proof.
  induction table as [|curr rest IH]; simpl; [reflexivity|].
  destruct (fltb (fdiv value (mask curr)) (Finite 1 0)); simpl; [exact IH | reflexivity].
Qed.

(** Without a requested unit, the row chosen is the first whose mask is at
    most the size, and there is one. *)
Lemma HumanReadableSize_auto_unit size :
  0 < size < two64 ->
  find (fun curr => negb (fltb (fdiv (float64_of_uint size) (mask curr)) (Finite 1 0))) sizes =
  find (fun curr => (mask_value curr <=? Z.of_N size)%Z) sizes
  /\ exists curr, find (fun curr => (mask_value curr <=? Z.of_N size)%Z) sizes = Some curr.
Proof.
  intros Hs. split.
  - assert (Hrows : forall curr, In curr sizes ->
      negb (fltb (fdiv (float64_of_uint size) (mask curr)) (Finite 1 0)) =
      (mask_value curr <=? Z.of_N size)%Z).
    { intros curr Hin. simpl in Hin.
      destruct Hin as [<-|[<-|[<-|[<-|[<-|[<-|[]]]]]]];
        unfold mask_value; cbn [mask]; change (2 ^ 0)%Z with 1%Z; rewrite Z.mul_1_r;
        (rewrite scaled_below_one; [rewrite Z.leb_antisym; reflexivity
                                   | exact Hs | split; [reflexivity | discriminate]]). }
    revert Hrows. generalize sizes. intros table. induction table as [|r rest IH]; intros Hrows.
    + reflexivity.
    + simpl. rewrite (Hrows r (or_introl eq_refl)).
      destruct (mask_value r <=? Z.of_N size)%Z; [reflexivity|].
      apply IH. intros curr Hin. apply Hrows. right. exact Hin.
  - destruct (find (fun curr => (mask_value curr <=? Z.of_N size)%Z) sizes) as [curr|] eqn:Ef.
    + exists curr. reflexivity.
    + exfalso.
      pose proof (find_none _ _ Ef (mkSizeUnit "B" (Finite 1 0) 0)) as Hn.
      cbv beta in Hn.
      assert (Hin : In (mkSizeUnit "B" (Finite 1 0) 0) sizes)
        by (simpl; do 5 right; left; reflexivity).
      specialize (Hn Hin). apply Z.leb_gt in Hn. unfold mask_value in Hn. cbn in Hn. lia.
Qed.

(** With a requested unit the loop stops at the first row of that unit. *)
Lemma HumanReadableSize_loop_unit value unit precision table :
  unit <> "" ->
  HumanReadableSize_loop value unit precision table =
  match find (fun curr => (unit =? unit_name curr)%string) table with
  | Some curr => Ok (render (fdiv value (mask curr)) precision curr)
  | None => Err ErrFormatSize
  end.
Proof.
  intros Hne. apply String.eqb_neq in Hne.
  induction table as [|curr rest IH]; simpl; [reflexivity|].
  rewrite Hne.
  destruct (unit =? unit_name curr)%string; simpl; [reflexivity | exact IH].
Qed.

(** C8: size 0 gives "0" whatever the unit and precision.  Otherwise the
    value is scaled by a power of 1000: without a unit, by the first of P, T,
    G, M, K, B whose power of 1000 is at most the size (the scaled value is
    then at least 1), and there is always one; with a unit, by that unit,
    and it is an error when the unit (in upper case) is none of the six.  The
    scaled value is printed with the given precision, or with the unit's
    default (P 5, T 4, G 3, M 2, K 1, B 0) when the given one is negative;
    trailing zeros and then a trailing dot are cut off, and the unit is
    appended unless it is B. *)
Theorem HumanReadableSizeWithUnitAndPrecision_spec :
  (forall unit precision,
      HumanReadableSizeWithUnitAndPrecision 0 unit precision = Ok "0")
  /\ (forall size precision,
        size <> 0 -> size < two64 ->
        exists curr,
          find (fun curr => (mask_value curr <=? Z.of_N size)%Z) sizes = Some curr
          /\ HumanReadableSizeWithUnitAndPrecision size "" precision =
             Ok (render (fdiv (float64_of_uint size) (mask curr)) precision curr))
  /\ (forall size unit precision curr,
        size <> 0 -> In curr sizes -> ToUpper unit = unit_name curr ->
        HumanReadableSizeWithUnitAndPrecision size unit precision =
        Ok (render (fdiv (float64_of_uint size) (mask curr)) precision curr))
  /\ (forall size unit precision,
        size <> 0 -> ToUpper unit <> "" ->
        ~ In (ToUpper unit) (map unit_name sizes) ->
        HumanReadableSizeWithUnitAndPrecision size unit precision = Err ErrFormatSize)
  /\ (forall csize precision curr,
        render csize precision curr =
        (TrimRight (TrimRight (FormatFloat csize
                                 (if (precision <? 0)%Z then unit_precision curr
                                  else precision)) "0") "."
         ++ (if (unit_name curr =? "B")%string || (unit_name curr =? "")%string
             then "" else unit_name curr))%string)
  /\ map (fun curr => (unit_name curr, mask curr, unit_precision curr)) sizes =
     [("P", Finite (10 ^ 15) 0, 5%Z); ("T", Finite (10 ^ 12) 0, 4%Z);
      ("G", Finite (10 ^ 9) 0, 3%Z); ("M", Finite (10 ^ 6) 0, 2%Z);
      ("K", Finite (10 ^ 3) 0, 1%Z); ("B", Finite 1 0, 0%Z)]
  /\ HumanReadableSizeWithUnitAndPrecision 1500000000 "" (-1) = Ok "1.5G"
  /\ HumanReadableSizeWithUnitAndPrecision 0 "" (-1) = Ok "0".
Proof.
  split; [|split; [|split; [|split; [|split; [|split; [|split]]]]]].
  - intros unit precision. reflexivity.
  - intros size precision Hne Hlt.
    destruct (HumanReadableSize_auto_unit size) as [Hfind [curr Hcurr]]; [lia|].
    exists curr. split; [exact Hcurr|].
    unfold HumanReadableSizeWithUnitAndPrecision.
    apply N.eqb_neq in Hne. rewrite Hne.
    rewrite HumanReadableSize_loop_auto, Hfind, Hcurr. reflexivity.
  - intros size unit precision curr Hne Hin Hu.
    unfold HumanReadableSizeWithUnitAndPrecision.
    apply N.eqb_neq in Hne. rewrite Hne.
    assert (Hnz : ToUpper unit <> "").
    { rewrite Hu. simpl in Hin.
      destruct Hin as [<-|[<-|[<-|[<-|[<-|[<-|[]]]]]]]; discriminate. }
    rewrite (HumanReadableSize_loop_unit _ _ _ _ Hnz). rewrite Hu.
    simpl in Hin.
    destruct Hin as [<-|[<-|[<-|[<-|[<-|[<-|[]]]]]]]; reflexivity.
  - intros size unit precision Hne Hnz Hnot.
    unfold HumanReadableSizeWithUnitAndPrecision.
    apply N.eqb_neq in Hne. rewrite Hne.
    rewrite (HumanReadableSize_loop_unit _ _ _ _ Hnz).
    destruct (find (fun curr => (ToUpper unit =? unit_name curr)%string) sizes)
      as [curr|] eqn:Ef; [|reflexivity].
    exfalso. apply find_some in Ef. destruct Ef as [Hin He].
    apply String.eqb_eq in He. apply Hnot. rewrite He. apply in_map. exact Hin.
  - intros csize precision curr. unfold render.
    destruct (unit_name curr =? "")%string; destruct (unit_name curr =? "B")%string;
      simpl; rewrite ?append_empty_r; reflexivity.
  - reflexivity.
  - vm_compute. reflexivity.
  - reflexivity.
Qed.

Lemma HumanReadableSizeWithUnitAndPrecision_spec_witness :
  HumanReadableSizeWithUnitAndPrecision 1000000 "m" 0 = Ok "1M"
  /\ HumanReadableSizeWithUnitAndPrecision 5 "x" 2 = Err ErrFormatSize.
Proof.
  destruct HumanReadableSizeWithUnitAndPrecision_spec as (_ & _ & Hunit & Herr & _).
  split.
  - rewrite (Hunit 1000000 "m" 0%Z (mkSizeUnit "M" (Finite (1000 * 1000) 0) 2)).
    + vm_compute. reflexivity.
    + discriminate.
    + right; right; right; left. reflexivity.
    + reflexivity.
  - apply Herr.
    + discriminate.
    + discriminate.
    + simpl. intros [H|[H|[H|[H|[H|[H|[]]]]]]]; discriminate H.
Defined.


(** ** Decoding the device listing *)

(** C10, where the code departs from the claim: after decoding, [sda2],
    which comes after a mounted partition of [sda], has no [Parent], and
    neither has the volume below [sdb1]; only [sda1] and [sdb1] point to
    their disks. *)
Lemma parseBlockDevicesDescriptor_leaves_Parent_nil :
  exists h sda sda1 sda2 sdb sdb1 vg,
    parseBlockDevicesDescriptor 40 emptyStore docListing = Some (h, Ok [sda; sdb])
    /\ Children (devs h sda) = Some [sda1; sda2]
    /\ Children (devs h sdb) = Some [sdb1]
    /\ Children (devs h sdb1) = Some [vg]
    /\ Parent (devs h sda1) = Some sda
    /\ Parent (devs h sdb1) = Some sdb
    /\ Name (devs h sda2) = "sda2" /\ Parent (devs h sda2) = None
    /\ Name (devs h vg) = "vg-root" /\ Parent (devs h vg) = None.
Proof.
  eexists. exists 0%nat, 1%nat, 2%nat, 3%nat, 4%nat, 5%nat.
  split; [vm_compute; reflexivity|].
  repeat split.
Qed.

(** Both forms of a size decode to the same number of bytes. *)
Example size_string_and_number :
  getNextByteToken [EVal (JString "10M")] "size" = (Ok 10485760, [])
  /\ getNextByteToken [EVal (JNumber "10485760")] "size" = (Ok 10485760, []).
Proof. vm_compute. split; reflexivity. Qed.
